(** * fix_sqlx_pools.py: the pool-dereferencing codemod

    Shallow embedding of [src/fix_sqlx_pools.py].  The script reads every
    Rust file under a fixed directory, pushes its text through a chain of
    six [re.sub] calls and writes the file back when the text changed.

    The development has four layers:
    - [Re]: the fragment of Python's [re] module that the six patterns
      use (literals, character sets, greedy [*] and [?], numbered groups,
      replacement templates, the leftmost non-overlapping scan of
      [re.sub]);
    - [Script]: the six calls of [fix_pool_patterns], the file system
      as explicit state with exceptions, and [main];
    - [Scan]: closed forms of the six substitutions (a literal replacer
      and a one-pass inserter) proved equal to the regex semantics;
    - the properties of the script. *)

From Stdlib Require Import String Ascii.
From Stdlib Require Import List Bool Arith NArith Lia.
Import ListNotations.

Set Implicit Arguments.

(** ** Text

    A Python [str] is a sequence of Unicode code points; a character is
    its code point. *)

Definition char := N.
Definition str := list char.

Definition lit (s : string) : str :=
  List.map N_of_ascii (list_ascii_of_string s).

Fixpoint str_eqb (a b : str) : bool :=
  match a, b with
  | [], [] => true
  | x :: a', y :: b' => N.eqb x y && str_eqb a' b'
  | _, _ => false
  end.

(** [starts_with p s]: [s.startswith(p)]. *)
Fixpoint starts_with (p s : str) : bool :=
  match p with
  | [] => true
  | c :: p' =>
      match s with
      | [] => false
      | x :: s' => N.eqb x c && starts_with p' s'
      end
  end.

Fixpoint tails (s : str) : list str :=
  s :: match s with
       | [] => []
       | _ :: s' => tails s'
       end.

(** ** The regular-expression fragment *)

Module Re.

(** Abstract syntax of the patterns.  [RSet] is a bracket expression given
    by its inclusive ranges, so [[a-zA-Z_]] is three ranges. *)
Inductive regex : Type :=
| REmpty
| RChar (c : char)
| RSet (ranges : list (char * char))
| RSeq (r1 r2 : regex)
| RStar (r : regex)
| ROpt (r : regex)
| RGroup (n : nat) (r : regex).

(** Captured groups, most recent binding first. *)
Definition groups := list (nat * str).

Fixpoint group (n : nat) (g : groups) : option str :=
  match g with
  | [] => None
  | (m, v) :: g' => if Nat.eqb m n then Some v else group n g'
  end.

Definition in_set (ranges : list (char * char)) (x : char) : bool :=
  existsb (fun r => N.leb (fst r) x && N.leb x (snd r)) ranges.

Section Matcher.

Variable A : Type.

(** Continuation of a match: what is left of the subject, and the groups. *)
Definition cont := str -> groups -> option A.

(** Greedy iteration of [body]: one more round first, and the continuation
    only when every longer attempt has failed.  A round that consumes
    nothing ends the iteration. *)
Definition star_iter (body : str -> groups -> cont -> option A) (k : cont)
  : nat -> str -> groups -> option A :=
  fix iter (fuel : nat) (s : str) (g : groups) {struct fuel} : option A :=
    match fuel with
    | O => k s g
    | S fuel' =>
        match body s g (fun s1 g1 =>
                 if Nat.ltb (length s1) (length s)
                 then iter fuel' s1 g1 else None) with
        | Some a => Some a
        | None => k s g
        end
    end.

(** Backtracking matcher anchored at the head of [s].  Alternatives are
    tried in the priority order of Python's engine; the first complete
    match wins. *)
Fixpoint rmatch (r : regex) (s : str) (g : groups) (k : cont) : option A :=
  match r with
  | REmpty => k s g
  | RChar c =>
      match s with
      | x :: s' => if N.eqb x c then k s' g else None
      | [] => None
      end
  | RSet ranges =>
      match s with
      | x :: s' => if in_set ranges x then k s' g else None
      | [] => None
      end
  | RSeq r1 r2 => rmatch r1 s g (fun s1 g1 => rmatch r2 s1 g1 k)
  | RStar r1 =>
      star_iter (fun s0 g0 k0 => rmatch r1 s0 g0 k0) k (length s) s g
  | ROpt r1 =>
      match rmatch r1 s g k with
      | Some a => Some a
      | None => k s g
      end
  | RGroup n r1 =>
      rmatch r1 s g
        (fun s1 g1 => k s1 ((n, firstn (length s - length s1) s) :: g1))
  end.

End Matcher.

(** Replacement templates: literal text and [\n] group references. *)
Inductive titem : Type :=
| TLit (s : str)
| TRef (n : nat).

Definition template := list titem.

(** A group that took no part in the match expands to the empty string. *)
Fixpoint expand (t : template) (g : groups) : str :=
  match t with
  | [] => []
  | TLit s :: t' => s ++ expand t' g
  | TRef n :: t' =>
      match group n g with
      | Some v => v ++ expand t' g
      | None => expand t' g
      end
  end.

(** [match_groups r s]: the match object of [r] anchored at the head of
    [s], as its groups and the text after the match. *)
Definition match_groups (r : regex) (s : str) : option (groups * str) :=
  rmatch r s [] (fun s1 g1 => Some (g1, s1)).

(** The same match with the replacement template expanded. *)
Definition match_at (r : regex) (t : template) (s : str) : option (str * str) :=
  match match_groups r s with
  | Some (g, rest) => Some (expand t g, rest)
  | None => None
  end.

(** The scan of [re.subn] over a one-position matcher [m]: at each position
    the match is tried; a match is replaced and the scan resumes after it,
    otherwise one character is copied.  An empty match is replaced and the
    next character copied. *)
Fixpoint scan (m : str -> option (str * str)) (fuel : nat) (s : str)
  : str * nat :=
  match fuel with
  | O => (s, 0)
  | S fuel' =>
      match m s with
      | Some (rep, rest) =>
          if Nat.ltb (length rest) (length s) then
            let (out, n) := scan m fuel' rest in (rep ++ out, S n)
          else
            match s with
            | [] => (rep, 1)
            | x :: s' =>
                let (out, n) := scan m fuel' s' in (rep ++ x :: out, S n)
            end
      | None =>
          match s with
          | [] => ([], 0)
          | x :: s' => let (out, n) := scan m fuel' s' in (x :: out, n)
          end
      end
  end.

Definition subn_with (m : str -> option (str * str)) (s : str) : str * nat :=
  scan m (S (length s)) s.

(** [re.subn(pattern, repl, string)] and [re.sub]. *)
Definition subn (r : regex) (t : template) (s : str) : str * nat :=
  subn_with (match_at r t) s.

Definition sub (r : regex) (t : template) (s : str) : str :=
  fst (subn r t s).

(** [re.search(pattern, string) is not None]. *)
Definition search (r : regex) (s : str) : bool :=
  existsb (fun u => match match_groups r u with
                    | Some _ => true
                    | None => false
                    end) (tails s).

(** A pattern made of literal characters only. *)
Fixpoint literal (p : str) : regex :=
  match p with
  | [] => REmpty
  | c :: p' => RSeq (RChar c) (literal p')
  end.

End Re.

Import Re.

(** ** The script *)

Module Script.

Definition ch (a : ascii) : char := N_of_ascii a.

(** [[a-zA-Z_]] and [[a-zA-Z0-9_]]. *)
Definition id_start_set : list (char * char) :=
  [(ch "a", ch "z"); (ch "A", ch "Z"); (ch "_", ch "_")].

Definition id_char_set : list (char * char) :=
  [(ch "a", ch "z"); (ch "A", ch "Z"); (ch "0", ch "9"); (ch "_", ch "_")].

(** [[a-zA-Z_][a-zA-Z0-9_]*] *)
Definition ident : regex :=
  RSeq (RSet id_start_set) (RStar (RSet id_char_set)).

(** The six patterns and replacements of [fix_pool_patterns], in the order
    of the calls. *)

(** [r'\.execute\(pool\)'] to ['.execute(&*pool)'] *)
Definition pat_execute : regex := literal (lit ".execute(pool)").
Definition rep_execute : template := [TLit (lit ".execute(&*pool)")].

(** [r'\.fetch_one\(pool\)'] to ['.fetch_one(&*pool)'] *)
Definition pat_fetch_one : regex := literal (lit ".fetch_one(pool)").
Definition rep_fetch_one : template := [TLit (lit ".fetch_one(&*pool)")].

(** [r'\.fetch_all\(pool\)'] to ['.fetch_all(&*pool)'] *)
Definition pat_fetch_all : regex := literal (lit ".fetch_all(pool)").
Definition rep_fetch_all : template := [TLit (lit ".fetch_all(&*pool)")].

(** [r'\.fetch_optional\(pool\)'] to ['.fetch_optional(&*pool)'] *)
Definition pat_fetch_optional : regex := literal (lit ".fetch_optional(pool)").
Definition rep_fetch_optional : template :=
  [TLit (lit ".fetch_optional(&*pool)")].

(** With ID standing for [[a-zA-Z_][a-zA-Z0-9_]*]: the pattern
    [(ID::)?(ID)] followed by the literal [tail]. *)
Definition pat_call (tail : str) : regex :=
  RSeq (ROpt (RGroup 1 (RSeq ident (literal (lit "::")))))
       (RSeq (RGroup 2 ident) (literal tail)).

(** [r'(ID::)?(ID)\(pool,'] to [r'\1\2(&*pool,'] *)
Definition pat_call_comma : regex := pat_call (lit "(pool,").
Definition rep_call_comma : template := [TRef 1; TRef 2; TLit (lit "(&*pool,")].

(** [r'(ID::)?(ID)\(pool\)'] to [r'\1\2(&*pool)'] *)
Definition pat_call_paren : regex := pat_call (lit "(pool)").
Definition rep_call_paren : template := [TRef 1; TRef 2; TLit (lit "(&*pool)")].

(** The text transformation in the body of [fix_pool_patterns]: the six
    assignments [content = re.sub(..., content)]. *)
Definition rewrite (content : str) : str :=
  let content := sub pat_execute rep_execute content in
  let content := sub pat_fetch_one rep_fetch_one content in
  let content := sub pat_fetch_all rep_fetch_all content in
  let content := sub pat_fetch_optional rep_fetch_optional content in
  let content := sub pat_call_comma rep_call_comma content in
  let content := sub pat_call_paren rep_call_paren content in
  content.

(** The rules as data, for statements that range over them. *)
Definition rules : list (regex * template) :=
  [ (pat_execute, rep_execute);
    (pat_fetch_one, rep_fetch_one);
    (pat_fetch_all, rep_fetch_all);
    (pat_fetch_optional, rep_fetch_optional);
    (pat_call_comma, rep_call_comma);
    (pat_call_paren, rep_call_paren) ].

Definition apply_rules (rs : list (regex * template)) (content : str) : str :=
  fold_left (fun c r => sub (fst r) (snd r) c) rs content.

(** The same chain with [re.subn], keeping the number of replacements each
    call makes. *)
Fixpoint apply_rules_counting (rs : list (regex * template)) (content : str)
  : str * list nat :=
  match rs with
  | [] => (content, [])
  | r :: rs' =>
      let (c1, n) := subn (fst r) (snd r) content in
      let (c2, ns) := apply_rules_counting rs' c1 in
      (c2, n :: ns)
  end.

(** *** The file system and the console

    The script's effects are reads and writes of files, lines printed to
    the console, and exceptions.  The state of the world is passed
    explicitly. *)

Definition path := string.

(** The exceptions file operations raise; all are subclasses of
    [Exception]. *)
Inductive exn : Type :=
| FileNotFoundError
| PermissionError
| UnicodeDecodeError
| OSError (errno : nat).

(** A file: its text (what [f.read()] returns and [f.write] stores, the
    UTF-8 coding left out), and what the environment does to the
    operations on it.  [read_fault]: [open(p, 'r')] or [f.read()] raises
    (also when the bytes do not decode).  [open_fault]:
    [open(p, 'w')] raises, before the file is truncated.  [write_fault =
    Some (n, e)]: the file is opened and truncated, and the write raises
    [e] when [n] characters have reached the file. *)
Record file : Type := mkfile {
  text : str;
  read_fault : option exn;
  open_fault : option exn;
  write_fault : option (nat * exn)
}.

Inductive fs_event : Type :=
| OpenRead (p : path)
| OpenWrite (p : path).

(** The lines the script prints, by format string. *)
Inductive message : Type :=
| MsgFixed (p : path)                (* f"Fixed: {file_path}" *)
| MsgError (p : path) (e : exn)      (* f"Error processing {file_path}: {e}" *)
| MsgNotFound                        (* f"Source directory not found: {src_dir}" *)
| MsgFound (n : nat)                 (* f"Found {len(rust_files)} Rust files" *)
| MsgFixedCount (n : nat).           (* f"Fixed {fixed_count} files" *)

(** [tree]: [None] when [src_dir] does not exist, otherwise the paths that
    [src_dir.rglob("*.rs")] yields, in its order.  [events]: the opens
    performed so far, oldest first.  [stdout]: the lines printed so far. *)
Record world : Type := mkworld {
  tree : option (list path);
  files : path -> option file;
  events : list fs_event;
  stdout : list message
}.

Inductive outcome (A : Type) : Type :=
| Ret (a : A)
| Raise (e : exn).

Arguments Ret {A} a.
Arguments Raise {A} e.

Definition io (A : Type) : Type := world -> outcome A * world.

Definition ret {A : Type} (a : A) : io A := fun w => (Ret a, w).

Definition bind {A B : Type} (c : io A) (k : A -> io B) : io B :=
  fun w =>
    match c w with
    | (Ret a, w1) => k a w1
    | (Raise e, w1) => (Raise e, w1)
    end.

(** [try: body except Exception as e: handler] *)
Definition try_except {A : Type} (body : io A) (handler : exn -> io A) : io A :=
  fun w =>
    match body w with
    | (Ret a, w1) => (Ret a, w1)
    | (Raise e, w1) => handler e w1
    end.

Notation "x <- c1 ;; c2" := (bind c1 (fun x => c2))
  (at level 61, c1 at next level, right associativity).
Notation "c1 ;; c2" := (bind c1 (fun _ => c2))
  (at level 61, right associativity).

Definition log_event (ev : fs_event) (w : world) : world :=
  mkworld (tree w) (files w) (events w ++ [ev]) (stdout w).

Definition set_file (p : path) (f : file) (w : world) : world :=
  mkworld (tree w)
          (fun q => if String.eqb q p then Some f else files w q)
          (events w) (stdout w).

(** [print(m)] *)
Definition printed (m : message) (w : world) : world :=
  mkworld (tree w) (files w) (events w) (stdout w ++ [m]).

Definition print (m : message) : io unit :=
  fun w => (Ret tt, printed m w).

(** [with open(p, 'r', encoding='utf-8') as f: content = f.read()] *)
Definition read_text (p : path) : io str :=
  fun w =>
    let w1 := log_event (OpenRead p) w in
    match files w p with
    | None => (Raise FileNotFoundError, w1)
    | Some f =>
        match read_fault f with
        | Some e => (Raise e, w1)
        | None => (Ret (text f), w1)
        end
    end.

(** [with open(p, 'w', encoding='utf-8') as f: f.write(content)].  Mode
    ['w'] creates the file or truncates it when it is opened. *)
Definition write_text (p : path) (content : str) : io unit :=
  fun w =>
    let w1 := log_event (OpenWrite p) w in
    match files w p with
    | None => (Ret tt, set_file p (mkfile content None None None) w1)
    | Some f =>
        match open_fault f with
        | Some e => (Raise e, w1)
        | None =>
            match write_fault f with
            | Some (n, e) =>
                (Raise e,
                 set_file p (mkfile (firstn n content) (read_fault f)
                                    (open_fault f) (write_fault f)) w1)
            | None =>
                (Ret tt,
                 set_file p (mkfile content (read_fault f)
                                    (open_fault f) (write_fault f)) w1)
            end
        end
    end.

(** [src_dir.exists()] and [list(src_dir.rglob("*.rs"))] *)
Definition src_dir_exists : io bool :=
  fun w => (Ret (match tree w with Some _ => true | None => false end), w).

Definition rglob_rs : io (list path) :=
  fun w => (Ret (match tree w with Some l => l | None => [] end), w).

(** [fix_pool_patterns(file_path)] *)
Definition fix_pool_patterns (file_path : path) : io bool :=
  try_except
    (content <- read_text file_path ;;
     let original_content := content in
     let content := rewrite content in
     if negb (str_eqb content original_content) then
       write_text file_path content ;;
       print (MsgFixed file_path) ;;
       ret true
     else ret false)
    (fun e =>
       print (MsgError file_path e) ;;
       ret false).

(** The loop of [main]: [for file_path in rust_files: ...] *)
Fixpoint for_files (rust_files : list path) (fixed_count : nat) : io nat :=
  match rust_files with
  | [] => ret fixed_count
  | file_path :: rest =>
      fixed <- fix_pool_patterns file_path ;;
      for_files rest (if fixed then S fixed_count else fixed_count)
  end.

(** [main()] *)
Definition main : io unit :=
  present <- src_dir_exists ;;
  if negb present then
    print MsgNotFound
  else
    rust_files <- rglob_rs ;;
    print (MsgFound (length rust_files)) ;;
    fixed_count <- for_files rust_files 0 ;;
    print (MsgFixedCount fixed_count).

(** *** Vocabulary for the statements *)

(** The paths opened for reading, in order. *)
Definition reads (evs : list fs_event) : list path :=
  flat_map (fun ev => match ev with
                      | OpenRead p => [p]
                      | OpenWrite _ => []
                      end) evs.

(** The paths opened for writing, in order. *)
Definition writes (evs : list fs_event) : list path :=
  flat_map (fun ev => match ev with
                      | OpenRead _ => []
                      | OpenWrite p => [p]
                      end) evs.

(** Reading [p] raises [e]. *)
Definition read_fails (w : world) (p : path) (e : exn) : Prop :=
  match files w p with
  | None => e = FileNotFoundError
  | Some f => read_fault f = Some e
  end.

(** The text stored at [p], if the file exists. *)
Definition text_at (w : world) (p : path) : option str :=
  match files w p with
  | Some f => Some (text f)
  | None => None
  end.

(** A file on which no operation fails. *)
Definition plain_file (content : str) : file := mkfile content None None None.

Fixpoint lookup_file (l : list (path * file)) (q : path) : option file :=
  match l with
  | [] => None
  | (p, f) :: l' => if String.eqb q p then Some f else lookup_file l' q
  end.

(** The world before the run: a source directory holding the files [l]. *)
Definition world_of (l : list (path * file)) : world :=
  mkworld (Some (List.map fst l)) (lookup_file l) [] [].

Definition nl : char := 10%N.



(** Worlds for the concrete cases. *)
Definition db_rs : path := "src/db.rs"%string.
Definition main_rs : path := "src/main.rs"%string.


Definition clean_file : file :=
  plain_file (lit "fn main() { run(pool_size); }").

Definition clean_world : world := world_of [(main_rs, clean_file)].

(** A file on which the write raises [OSError(28)] (no space left on the
    device) when [n] characters have been written. *)
Definition failing_file (n : nat) : file :=
  mkfile (lit "q.execute(pool)") None None (Some (n, OSError 28)).

Definition failing_world (n : nat) : world := world_of [(db_rs, failing_file n)].

(** A file that cannot be read next to one the rules leave alone. *)
Definition locked_file : file :=
  mkfile (lit "q.execute(pool)") (Some PermissionError) None None.

Definition locked_world : world :=
  world_of [(db_rs, locked_file); (main_rs, clean_file)].



(** A file the rules rewrite next to one they leave alone. *)
Definition pair_world : world :=
  world_of [(db_rs, plain_file (lit "q.execute(pool)")); (main_rs, clean_file)].

(** The number of [Fixed:] lines among printed lines. *)
Definition count_fixed (ms : list message) : nat :=
  length (filter (fun m => match m with
                           | MsgFixed _ => true
                           | _ => false
                           end) ms).

(** No operation on the file fails. *)
Definition sound (f : file) : Prop :=
  read_fault f = None /\ open_fault f = None /\ write_fault f = None.

(** [p] exists in [w] and can be read and written. *)
Definition healthy (w : world) (p : path) : Prop :=
  exists f, files w p = Some f /\ sound f.

(** [p] can be read in [w] and the rules leave its text as it is. *)
Definition settled (w : world) (p : path) : Prop :=
  exists f, files w p = Some f /\ read_fault f = None /\
            rewrite (text f) = text f.

End Script.

Import Script.


(** ** Closed forms of the substitutions *)

Module Scan.

Definition is_id_start (x : char) : bool := in_set id_start_set x.
Definition is_id_char (x : char) : bool := in_set id_char_set x.

(** The longest run of identifier characters at the head, and what follows. *)
Fixpoint take_id (s : str) : str :=
  match s with
  | x :: s' => if is_id_char x then x :: take_id s' else []
  | [] => []
  end.

Fixpoint skip_id (s : str) : str :=
  match s with
  | x :: s' => if is_id_char x then skip_id s' else s
  | [] => []
  end.

(** An identifier at the head of [s]: the identifier and the rest. *)
Definition ident_at (s : str) : option (str * str) :=
  match s with
  | x :: s' => if is_id_start x then Some (x :: take_id s', skip_id s') else None
  | [] => None
  end.

(** One-position matcher of a literal pattern [p] replaced by [rep]. *)
Definition literal_at (p rep s : str) : option (str * str) :=
  if starts_with p s then Some (rep, skipn (length p) s) else None.

(** One-position matcher of [(ID::)?(ID)tail] replaced by [\1\2rep]: the
    qualified reading first, the bare one when it fails. *)
Definition call_at (tail rep s : str) : option (str * str) :=
  match ident_at s with
  | None => None
  | Some (i1, r1) =>
      let qualified :=
        if starts_with (lit "::") r1 then
          match ident_at (skipn 2 r1) with
          | Some (i2, r2) =>
              if starts_with tail r2
              then Some (i1 ++ lit "::" ++ i2 ++ rep, skipn (length tail) r2)
              else None
          | None => None
          end
        else None in
      match qualified with
      | Some a => Some a
      | None =>
          if starts_with tail r1
          then Some (i1 ++ rep, skipn (length tail) r1)
          else None
      end
  end.

(** State of the one-pass inserter: does the run of identifier characters
    that ends here contain a letter or an underscore? *)
Definition next_ok (ok : bool) (x : char) : bool :=
  is_id_start x || (is_id_char x && ok).

(** [ins tail ok s]: copy [s], writing [&*] after every opening parenthesis
    that follows an identifier and is followed by [tail]. *)
Fixpoint ins (tail : str) (ok : bool) (s : str) : str :=
  match s with
  | [] => []
  | x :: s' =>
      if N.eqb x (ch "(") && ok && starts_with tail s'
      then x :: lit "&*" ++ ins tail false s'
      else x :: ins tail (next_ok ok x) s'
  end.

(** A matcher never returns an empty match. *)
Definition consuming (m : str -> option (str * str)) : Prop :=
  forall s rep rest, m s = Some (rep, rest) -> length rest < length s.

(** Every replacement is two characters longer than what it replaces. *)
Definition grows_by_two (m : str -> option (str * str)) : Prop :=
  forall s rep rest, m s = Some (rep, rest) ->
    length rest < length s /\ length rep = length s - length rest + 2.

(** A continuation that cannot go on from an identifier character. *)
Definition stops_at_id (A : Type) (k : cont A) : Prop :=
  forall x s g, is_id_char x = true -> k (x :: s) g = None.

Definition no_paren (u : str) : bool :=
  forallb (fun x => negb (N.eqb x (ch "("))) u.

Definition no_dot (u : str) : bool :=
  forallb (fun x => negb (N.eqb x (ch "."))) u.

(** What may follow the parenthesis in a call pattern: text without a
    parenthesis that ends outside an identifier. *)
Definition call_tail (t : str) : Prop :=
  no_paren t = true /\ forall ok, fold_left next_ok t ok = false.

(** A tail that does not start like the inserted text. *)
Definition plain_tail (t : str) : Prop :=
  no_paren t = true /\ forall z, starts_with t (lit "&*" ++ z) = false.

Fixpoint ends_with_stop (t : str) : bool :=
  match t with
  | [] => false
  | d :: t' =>
      match t' with
      | [] => negb (is_id_char d)
      | _ :: _ => ends_with_stop t'
      end
  end.

(** The call rule with [(] and [t] after the identifier. *)
Definition call_matcher (t : str) : str -> option (str * str) :=
  call_at (ch "(" :: t) (ch "(" :: lit "&*" ++ t).

(** The method rules: [.meth(pool)] becomes [.meth(&*pool)]. *)
Definition is_method (meth : str) : bool :=
  match meth with
  | x :: u => is_id_start x && forallb is_id_char u
  | [] => false
  end.

Definition method_pat (meth : str) : str := ch "." :: meth ++ lit "(pool)".
Definition method_rep (meth : str) : str := ch "." :: meth ++ lit "(&*pool)".

Definition method_matcher (meth : str) : str -> option (str * str) :=
  literal_at (method_pat meth) (method_rep meth).

(** A rule whose scan is that of a matcher adding two characters at
    each match. *)
Definition growing_rule (r : regex * template) : Prop :=
  exists m, grows_by_two m /\ forall s, subn (fst r) (snd r) s = subn_with m s.

(** The two inserters the script's call rules amount to. *)
Definition ins_comma : str -> str := ins (lit "pool,") false.
Definition ins_paren : str -> str := ins (lit "pool)") false.

(** [insertion s s']: [s'] is [s] with [&*] written after some of its
    opening parentheses. *)
Inductive insertion : str -> str -> Prop :=
| insertion_nil : insertion [] []
| insertion_copy : forall x s s', insertion s s' -> insertion (x :: s) (x :: s')
| insertion_add : forall s s',
    insertion s s' -> insertion (ch "(" :: s) (ch "(" :: lit "&*" ++ s').

Arguments insertion_copy : clear implicits.
Arguments insertion_add : clear implicits.

(** [m] matches nowhere in [s]. *)
Definition quiet (m : str -> option (str * str)) (s : str) : Prop :=
  forall u, In u (tails s) -> m u = None.

(** A word without the characters the rules insert. *)
Definition no_amp_star (p : str) : bool :=
  forallb (fun x => negb (N.eqb x (ch "&")) && negb (N.eqb x (ch "*"))) p.

(** [subseq a b]: [a] is [b] with some characters left out. *)
Inductive subseq : str -> str -> Prop :=
| subseq_nil : subseq [] []
| subseq_keep : forall x a b, subseq a b -> subseq (x :: a) (x :: b)
| subseq_drop : forall x a b, subseq a b -> subseq a (x :: b).

(** The text ends in an identifier: its last run of identifier characters
    holds a letter or an underscore. *)
Definition after_identifier (x : str) : bool :=
  existsb is_id_start (take_id (rev x)).

(** A method rule as a function on texts. *)
Definition method_sub (meth : str) (s : str) : str :=
  fst (subn_with (method_matcher meth) s).

(** [d] does not occur in [t]. *)
Definition lacks (d : char) (t : str) : bool :=
  forallb (fun c => negb (N.eqb c d)) t.

(** A character no pattern of the script can match across. *)
Definition separator (d : char) : bool :=
  negb (is_id_char d) && negb (N.eqb d (ch "(")) &&
  negb (N.eqb d (ch ",")) && negb (N.eqb d (ch ")")).

End Scan.

Import Scan.

Arguments is_id_start : simpl never.
Arguments is_id_char : simpl never.

Unset Implicit Arguments.

(** ** The scan *)

Section ScanFacts.

Variable m : str -> option (str * str).

Lemma scan_S : forall fuel s,
  scan m (S fuel) s =
    match m s with
    | Some (rep, rest) =>
        if Nat.ltb (length rest) (length s) then
          let (out, n) := scan m fuel rest in (rep ++ out, S n)
        else
          match s with
          | [] => (rep, 1)
          | x :: s' => let (out, n) := scan m fuel s' in (rep ++ x :: out, S n)
          end
    | None =>
        match s with
        | [] => ([], 0)
        | x :: s' => let (out, n) := scan m fuel s' in (x :: out, n)
        end
    end.
Proof. reflexivity. Qed.

Lemma scan_fuel : forall fuel1 fuel2 s,
  length s < fuel1 -> length s < fuel2 -> scan m fuel1 s = scan m fuel2 s.
Proof.
  induction fuel1 as [|f1 IH]; intros fuel2 s H1 H2; [lia|].
  destruct fuel2 as [|f2]; [lia|].
  rewrite !scan_S.
  destruct (m s) as [[rep rest]|].
  - destruct (Nat.ltb (length rest) (length s)) eqn:E.
    + apply Nat.ltb_lt in E. rewrite (IH f2 rest) by lia. reflexivity.
    + destruct s as [|x s']; [reflexivity|].
      cbn [length] in *. rewrite (IH f2 s') by lia. reflexivity.
  - destruct s as [|x s']; [reflexivity|].
    cbn [length] in *. rewrite (IH f2 s') by lia. reflexivity.
Qed.

Lemma subn_with_nil : m [] = None -> subn_with m [] = ([], 0).
Proof. intros H. unfold subn_with. cbn. rewrite H. reflexivity. Qed.

Lemma subn_with_skip : forall x s,
  m (x :: s) = None ->
  subn_with m (x :: s) = (x :: fst (subn_with m s), snd (subn_with m s)).
Proof.
  intros x s H. unfold subn_with. cbn [length]. rewrite scan_S, H.
  destruct (scan m (S (length s)) s); reflexivity.
Qed.

Lemma subn_with_hit : forall s rep rest,
  m s = Some (rep, rest) -> length rest < length s ->
  subn_with m s =
    (rep ++ fst (subn_with m rest), S (snd (subn_with m rest))).
Proof.
  intros s rep rest H L. unfold subn_with. rewrite scan_S, H.
  apply Nat.ltb_lt in L as L'. rewrite L'.
  rewrite (scan_fuel (length s) (S (length rest))) by lia.
  destruct (scan m (S (length rest)) rest); reflexivity.
Qed.

(** Where the pattern matches nowhere, the scan copies its input. *)
Lemma subn_with_no_match : forall s,
  (forall u, In u (tails s) -> m u = None) -> subn_with m s = (s, 0).
Proof.
  induction s as [|x s IH]; intros H.
  - apply subn_with_nil. apply H. left. reflexivity.
  - rewrite subn_with_skip by (apply H; left; reflexivity).
    rewrite IH; [reflexivity|]. intros u Hu. apply H. right. exact Hu.
Qed.

(** No replacement made: the output is the input. *)
Lemma subn_with_zero : forall n s,
  length s <= n -> consuming m ->
  snd (subn_with m s) = 0 -> fst (subn_with m s) = s.
Proof.
  induction n as [|n IH]; intros s L C H.
  - destruct s; [|cbn in L; lia].
    unfold subn_with in *. cbn in *. destruct (m []) as [[rep rest]|] eqn:E.
    + apply C in E. cbn in E. lia.
    + reflexivity.
  - destruct (m s) as [[rep rest]|] eqn:E.
    + rewrite (subn_with_hit _ _ _ E (C _ _ _ E)) in H. cbn in H. discriminate.
    + destruct s as [|x s].
      * rewrite subn_with_nil by exact E. reflexivity.
      * rewrite subn_with_skip in * by exact E. cbn [fst snd] in *.
        f_equal. apply IH; [cbn in L; lia|exact C|exact H].
Qed.

(** Each replacement adds two characters. *)
Lemma subn_with_length : forall n s,
  length s <= n -> grows_by_two m ->
  length (fst (subn_with m s)) = length s + 2 * snd (subn_with m s).
Proof.
  induction n as [|n IH]; intros s L G.
  - destruct s; [|cbn in L; lia].
    destruct (m []) as [[rep rest]|] eqn:E.
    + apply G in E. cbn in E. lia.
    + rewrite subn_with_nil by exact E. reflexivity.
  - destruct (m s) as [[rep rest]|] eqn:E.
    + destruct (G _ _ _ E) as [L1 L2].
      rewrite (subn_with_hit _ _ _ E L1). cbn [fst snd].
      rewrite length_app, (IH rest) by (try exact G; lia). lia.
    + destruct s as [|x s].
      * rewrite subn_with_nil by exact E. reflexivity.
      * rewrite subn_with_skip by exact E. cbn [fst snd length].
        rewrite (IH s) by (try exact G; cbn in L; lia). lia.
Qed.

End ScanFacts.

Lemma subn_with_ext : forall m1 m2,
  (forall s, m1 s = m2 s) -> forall s, subn_with m1 s = subn_with m2 s.
Proof.
  intros m1 m2 H s. unfold subn_with. generalize (S (length s)) as fuel.
  intros fuel. revert s. induction fuel as [|f IH]; intros s; [reflexivity|].
  cbn [scan]. rewrite H. destruct (m2 s) as [[rep rest]|].
  - rewrite IH. destruct s; [reflexivity|]. rewrite IH. reflexivity.
  - destruct s; [reflexivity|]. rewrite IH. reflexivity.
Qed.

(** ** The matcher on the script's patterns *)

Lemma starts_with_app : forall p s, starts_with p (p ++ s) = true.
Proof.
  induction p as [|c p IH]; intros s; [reflexivity|].
  cbn. rewrite N.eqb_refl. apply IH.
Qed.

Lemma starts_with_split : forall p s,
  starts_with p s = true -> s = p ++ skipn (length p) s.
Proof.
  induction p as [|c p IH]; intros s H; [reflexivity|].
  destruct s as [|x s]; [discriminate|].
  cbn in H. apply andb_prop in H as [H1 H2].
  apply N.eqb_eq in H1. subst x. cbn. f_equal. apply IH. exact H2.
Qed.

Lemma take_skip_id : forall s, take_id s ++ skip_id s = s.
Proof.
  induction s as [|x s IH]; [reflexivity|].
  cbn [take_id skip_id].
  destruct (is_id_char x); [cbn; f_equal; exact IH|reflexivity].
Qed.

Lemma take_id_all : forall s, forallb is_id_char (take_id s) = true.
Proof.
  induction s as [|x s IH]; [reflexivity|].
  cbn [take_id].
  destruct (is_id_char x) eqn:E; [cbn; rewrite E; exact IH|reflexivity].
Qed.

Lemma firstn_prefix : forall (a b : str),
  firstn (length (a ++ b) - length b) (a ++ b) = a.
Proof.
  intros a b. rewrite length_app.
  replace (length a + length b - length b) with (length a) by lia.
  rewrite firstn_app, Nat.sub_diag, firstn_all. cbn. apply app_nil_r.
Qed.

Lemma ident_at_split : forall s i r, ident_at s = Some (i, r) -> s = i ++ r.
Proof.
  intros [|x s] i r H; [discriminate|].
  cbn [ident_at] in H. destruct (is_id_start x); [|discriminate].
  injection H as <- <-. cbn. f_equal. symmetry. apply take_skip_id.
Qed.

Section MatcherFacts.

Variable A : Type.

Lemma rmatch_literal : forall p s g (k : cont A),
  rmatch (literal p) s g k =
    if starts_with p s then k (skipn (length p) s) g else None.
Proof.
  induction p as [|c p IH]; intros s g k; [reflexivity|].
  cbn [literal rmatch]. destruct s as [|x s]; [reflexivity|].
  cbn [starts_with length skipn]. destruct (N.eqb x c); [apply IH|reflexivity].
Qed.

(** Backtracking into [[a-zA-Z0-9_]*] never helps such a continuation: the
    star takes the whole run. *)
Lemma star_id_chars : forall (k : cont A), stops_at_id k ->
  forall fuel s g, length s <= fuel ->
    star_iter (fun s0 g0 k0 => rmatch (RSet id_char_set) s0 g0 k0) k fuel s g
    = k (skip_id s) g.
Proof.
  intros k Hk. induction fuel as [|f IH]; intros s g L.
  - destruct s; [reflexivity|cbn in L; lia].
  - cbn [star_iter rmatch]. destruct s as [|x s]; [reflexivity|].
    cbn [skip_id]. fold (is_id_char x). destruct (is_id_char x) eqn:E.
    + cbn [length]. replace (Nat.ltb (length s) (S (length s))) with true
        by (symmetry; apply Nat.ltb_lt; lia).
      cbn [length] in L.
      change (match star_iter (fun s0 g0 k0 => rmatch (RSet id_char_set) s0 g0 k0) k f s g with
              | Some a => Some a
              | None => k (x :: s) g
              end = k (skip_id s) g).
      rewrite IH by lia. rewrite (Hk x s g E).
      destruct (k (skip_id s) g); reflexivity.
    + reflexivity.
Qed.

Lemma rmatch_ident : forall (k : cont A), stops_at_id k ->
  forall s g,
    rmatch ident s g k =
      match s with
      | x :: s' => if is_id_start x then k (skip_id s') g else None
      | [] => None
      end.
Proof.
  intros k Hk s g. unfold ident. cbn [rmatch].
  destruct s as [|x s]; [reflexivity|].
  fold (is_id_start x). destruct (is_id_start x); [|reflexivity].
  apply star_id_chars; [exact Hk|lia].
Qed.

End MatcherFacts.

Lemma stops_at_literal : forall (A : Type) c tl (F : str -> groups -> groups) (k : cont A),
  is_id_char c = false ->
  stops_at_id (fun s g => rmatch (literal (c :: tl)) s (F s g) k).
Proof.
  intros A c tl F k Hc x s g Hx. cbn [literal rmatch].
  destruct (N.eqb x c) eqn:E; [|reflexivity].
  apply N.eqb_eq in E. subst x. congruence.
Qed.

Lemma match_at_literal : forall p rep s,
  match_at (literal p) [TLit rep] s = literal_at p rep s.
Proof.
  intros p rep s. unfold match_at, match_groups, literal_at.
  rewrite rmatch_literal. destruct (starts_with p s); [|reflexivity].
  cbn [expand]. rewrite app_nil_r. reflexivity.
Qed.

Lemma rmatch_ident_literal : forall (A : Type) c tl (F : str -> groups -> groups) (k : cont A) s g,
  is_id_char c = false ->
  rmatch ident s g (fun s1 g1 => rmatch (literal (c :: tl)) s1 (F s1 g1) k) =
    match ident_at s with
    | Some (i, r) =>
        if starts_with (c :: tl) r
        then k (skipn (length (c :: tl)) r) (F r g)
        else None
    | None => None
    end.
Proof.
  intros A c tl F k s g Hc.
  rewrite (rmatch_ident A _ (stops_at_literal A c tl F k Hc)).
  unfold ident_at. destruct s as [|x s]; [reflexivity|].
  destruct (is_id_start x); [|reflexivity].
  apply rmatch_literal.
Qed.

Lemma match_at_call : forall c tl rep s,
  is_id_char c = false ->
  match_at (pat_call (c :: tl)) [TRef 1; TRef 2; TLit rep] s
  = call_at (c :: tl) rep s.
Proof.
  intros c tl rep s Hc.
  unfold match_at, match_groups, pat_call. cbn [rmatch].
  rewrite (rmatch_ident_literal _ c tl
             (fun s1 g1 => (2, firstn (length s - length s1) s) :: g1) _ s [] Hc).
  change (lit "::") with (58%N :: [58%N]).
  rewrite (rmatch_ident_literal _ 58%N [58%N] (fun _ g1 => g1) _ s [] eq_refl).
  unfold call_at.
  destruct (ident_at s) as [[i1 r1]|] eqn:E1; [|reflexivity].
  apply ident_at_split in E1 as S1.
  change (58%N :: [58%N]) with (lit "::").
  change (length (lit "::")) with 2.
  assert (G2 : firstn (length s - length r1) s = i1)
    by (rewrite S1; apply firstn_prefix).
  rewrite G2.
  assert (Bare :
    match (if starts_with (c :: tl) r1
           then Some ([(2, i1)], skipn (length (c :: tl)) r1) else None) with
    | Some (g, rest) => Some (expand [TRef 1; TRef 2; TLit rep] g, rest)
    | None => None
    end =
    (if starts_with (c :: tl) r1
     then Some (i1 ++ rep, skipn (length (c :: tl)) r1) else None)).
  { destruct (starts_with (c :: tl) r1); [|reflexivity].
    cbn [expand group Nat.eqb]. rewrite app_nil_r. reflexivity. }
  destruct (starts_with (lit "::") r1) eqn:E2; [|exact Bare].
  apply starts_with_split in E2 as S2. change (length (lit "::")) with 2 in S2.
  set (r1' := skipn 2 r1) in *.
  rewrite (rmatch_ident_literal _ c tl
             (fun s1 g1 => (2, firstn (length r1' - length s1) r1') :: g1)
             _ r1' _ Hc).
  destruct (ident_at r1') as [[i2 r2]|] eqn:E3; [|exact Bare].
  apply ident_at_split in E3 as S3.
  destruct (starts_with (c :: tl) r2); [|exact Bare].
  assert (G1 : firstn (length s - length r1') s = i1 ++ lit "::").
  { rewrite S1, S2, app_assoc. apply firstn_prefix. }
  assert (G3 : firstn (length r1' - length r2) r1' = i2)
    by (rewrite S3; apply firstn_prefix).
  rewrite G1, G3. cbn [expand group Nat.eqb].
  rewrite app_nil_r, <- !app_assoc. reflexivity.
Qed.

(** ** The one-pass inserter *)

Lemma id_start_is_id_char : forall x, is_id_start x = true -> is_id_char x = true.
Proof.
  intros x. unfold is_id_start, is_id_char, id_start_set, id_char_set, in_set.
  cbn [existsb fst snd]. intros H.
  repeat (apply orb_prop in H as [H|H]; [rewrite H; cbn; rewrite ?orb_true_r; reflexivity|]).
  discriminate.
Qed.

Lemma paren_not_id : forall x, is_id_char x = true -> N.eqb x (ch "(") = false.
Proof.
  intros x H. destruct (N.eqb x (ch "(")) eqn:E; [|reflexivity].
  apply N.eqb_eq in E. subst x. discriminate.
Qed.

Lemma next_ok_stop : forall ok x, is_id_char x = false -> next_ok ok x = false.
Proof.
  intros ok x H. unfold next_ok. rewrite H.
  destruct (is_id_start x) eqn:E; [|reflexivity].
  apply id_start_is_id_char in E. congruence.
Qed.

Lemma next_ok_true : forall x, is_id_char x = true -> next_ok true x = true.
Proof. intros x H. unfold next_ok. rewrite H. apply orb_true_r. Qed.

Lemma next_ok_start : forall ok x, is_id_start x = true -> next_ok ok x = true.
Proof. intros ok x H. unfold next_ok. rewrite H. reflexivity. Qed.

Section Inserter.

Variable t : str.

Lemma ins_cons : forall ok x s,
  ins t ok (x :: s) =
    if N.eqb x (ch "(") && ok && starts_with t s
    then x :: lit "&*" ++ ins t false s
    else x :: ins t (next_ok ok x) s.
Proof. reflexivity. Qed.

Lemma ins_other : forall ok x s,
  N.eqb x (ch "(") = false -> ins t ok (x :: s) = x :: ins t (next_ok ok x) s.
Proof. intros ok x s H. rewrite ins_cons, H. reflexivity. Qed.

Lemma ins_hit : forall s,
  starts_with t s = true ->
  ins t true (ch "(" :: s) = ch "(" :: lit "&*" ++ ins t false s.
Proof. intros s H. rewrite ins_cons, H. reflexivity. Qed.

Lemma ins_miss : forall ok x s,
  ok && starts_with t s = false ->
  ins t ok (x :: s) = x :: ins t (next_ok ok x) s.
Proof.
  intros ok x s H. rewrite ins_cons, <- andb_assoc, H, andb_false_r.
  reflexivity.
Qed.

(** Text without a parenthesis is copied; only the state moves. *)
Lemma ins_no_paren : forall u ok s,
  no_paren u = true ->
  ins t ok (u ++ s) = u ++ ins t (fold_left next_ok u ok) s.
Proof.
  induction u as [|x u IH]; intros ok s H; [reflexivity|].
  cbn [no_paren forallb] in H. apply andb_prop in H as [H1 H2].
  apply negb_true_iff in H1.
  cbn [app fold_left]. rewrite ins_other by exact H1. f_equal.
  apply IH. exact H2.
Qed.

Lemma id_chars_no_paren : forall u,
  forallb is_id_char u = true -> no_paren u = true.
Proof.
  induction u as [|x u IH]; intros H; [reflexivity|].
  cbn [forallb] in H. apply andb_prop in H as [H1 H2].
  cbn [no_paren forallb]. rewrite (paren_not_id x H1). cbn. apply IH. exact H2.
Qed.

Lemma fold_next_ok_true : forall u,
  forallb is_id_char u = true -> fold_left next_ok u true = true.
Proof.
  induction u as [|x u IH]; intros H; [reflexivity|].
  cbn [forallb] in H. apply andb_prop in H as [H1 H2].
  cbn [fold_left]. rewrite next_ok_true by exact H1. apply IH. exact H2.
Qed.

(** After an identifier the state is set, whatever it was before. *)
Lemma ins_ident : forall s i r ok z,
  ident_at s = Some (i, r) ->
  ins t ok (i ++ z) = i ++ ins t true z.
Proof.
  intros [|x s] i r ok z H; [discriminate|].
  cbn [ident_at] in H. destruct (is_id_start x) eqn:E; [|discriminate].
  injection H as <- <-.
  assert (A : forallb is_id_char (x :: take_id s) = true).
  { cbn [forallb]. rewrite (id_start_is_id_char x E). apply take_id_all. }
  rewrite ins_no_paren by (apply id_chars_no_paren; exact A).
  cbn [fold_left]. rewrite next_ok_start by exact E.
  rewrite fold_next_ok_true by apply take_id_all. reflexivity.
Qed.

Lemma ins_colons : forall ok z,
  ins t ok (lit "::" ++ z) = lit "::" ++ ins t false z.
Proof.
  intros ok z. rewrite ins_no_paren by reflexivity. reflexivity.
Qed.

Lemma ins_amp_star : forall ok z,
  ins t ok (lit "&*" ++ z) = lit "&*" ++ ins t false z.
Proof.
  intros ok z. rewrite ins_no_paren by reflexivity. reflexivity.
Qed.

(** The state does not matter when the run of identifier characters at
    the head is not followed by a call site. *)
Lemma ins_state_irrelevant : forall s b b',
  starts_with (ch "(" :: t) (skip_id s) = false ->
  ins t b s = ins t b' s.
Proof.
  induction s as [|x s IH]; intros b b' H; [reflexivity|].
  cbn [skip_id] in H. destruct (is_id_char x) eqn:E.
  - rewrite !ins_other by (apply paren_not_id; exact E).
    f_equal. apply IH. exact H.
  - cbn [starts_with] in H.
    rewrite !ins_cons, !(next_ok_stop _ x E).
    destruct (N.eqb x (ch "(")); [|reflexivity].
    cbn [andb] in H. rewrite H, !andb_false_r. reflexivity.
Qed.

End Inserter.

Lemma ins_tail : forall t t' ok z,
  call_tail t -> ins t' ok (t ++ z) = t ++ ins t' false z.
Proof.
  intros t t' ok z [H1 H2]. rewrite ins_no_paren by exact H1.
  rewrite H2. reflexivity.
Qed.

(** What a match of the call pattern looks like. *)
Lemma call_matcher_inv : forall t s rep rest,
  call_matcher t s = Some (rep, rest) ->
  exists pre,
    s = pre ++ ch "(" :: t ++ rest /\
    rep = pre ++ ch "(" :: lit "&*" ++ t /\
    forall t' ok z, ins t' ok (pre ++ z) = pre ++ ins t' true z.
Proof.
  intros t s rep rest H. unfold call_matcher, call_at in H.
  destruct (ident_at s) as [[i1 r1]|] eqn:E1; [|discriminate].
  apply ident_at_split in E1 as S1.
  assert (Bare :
    (if starts_with (ch "(" :: t) r1
     then Some (i1 ++ ch "(" :: lit "&*" ++ t, skipn (length (ch "(" :: t)) r1)
     else None) = Some (rep, rest) ->
    exists pre,
      s = pre ++ ch "(" :: t ++ rest /\
      rep = pre ++ ch "(" :: lit "&*" ++ t /\
      forall t' ok z, ins t' ok (pre ++ z) = pre ++ ins t' true z).
  { intros B. destruct (starts_with (ch "(" :: t) r1) eqn:E; [|discriminate].
    apply starts_with_split in E. injection B as <- <-.
    exists i1. split; [|split].
    - rewrite S1 at 1. f_equal. exact E.
    - reflexivity.
    - intros t' ok z. eapply ins_ident. exact E1. }
  destruct (starts_with (lit "::") r1) eqn:E2; [|exact (Bare H)].
  apply starts_with_split in E2 as S2. change (length (lit "::")) with 2 in S2.
  destruct (ident_at (skipn 2 r1)) as [[i2 r2]|] eqn:E3; [|exact (Bare H)].
  apply ident_at_split in E3 as S3.
  destruct (starts_with (ch "(" :: t) r2) eqn:E4; [|exact (Bare H)].
  apply starts_with_split in E4. injection H as <- <-.
  exists (i1 ++ lit "::" ++ i2). split; [|split].
  - rewrite S1 at 1. rewrite S2 at 1. rewrite S3 at 1. rewrite E4 at 1.
    rewrite <- !app_assoc. reflexivity.
  - rewrite <- !app_assoc. reflexivity.
  - intros t' ok z. rewrite <- !app_assoc.
    rewrite (ins_ident t' s i1 r1 ok _ E1), ins_colons.
    rewrite (ins_ident t' _ i2 r2 false _ E3). reflexivity.
Qed.

Lemma call_matcher_miss : forall t x s,
  call_matcher t (x :: s) = None -> is_id_start x = true ->
  starts_with (ch "(" :: t) (skip_id s) = false.
Proof.
  intros t x s H E. unfold call_matcher, call_at in H.
  cbn [ident_at] in H. rewrite E in H.
  destruct (starts_with (ch "(" :: t) (skip_id s)); [|reflexivity].
  destruct (if starts_with (lit "::") (skip_id s) then _ else _);
    discriminate.
Qed.

Lemma call_matcher_grows : forall t, grows_by_two (call_matcher t).
Proof.
  intros t s rep rest H.
  destruct (call_matcher_inv t s rep rest H) as (pre & -> & -> & _).
  repeat (rewrite length_app; cbn [length]).
  change (length (lit "&*")) with 2. lia.
Qed.

Lemma grows_consuming : forall m, grows_by_two m -> consuming m.
Proof. intros m G s rep rest H. apply (G s rep rest H). Qed.

(** The scan of the call pattern is the one-pass inserter. *)
Lemma scan_call : forall t, call_tail t ->
  forall s, fst (subn_with (call_matcher t) s) = ins t false s.
Proof.
  intros t Ht s. remember (length s) as n eqn:L.
  assert (L' : length s <= n) by lia. clear L. revert s L'.
  induction n as [|n IH]; intros s L.
  - destruct s; [|cbn in L; lia]. rewrite subn_with_nil; reflexivity.
  - destruct (call_matcher t s) as [[rep rest]|] eqn:E.
    + destruct (call_matcher_grows t s rep rest E) as [L1 _].
      rewrite (subn_with_hit _ _ _ _ E L1). cbn [fst].
      destruct (call_matcher_inv t s rep rest E) as (pre & -> & -> & P).
      rewrite P, ins_hit by apply starts_with_app.
      rewrite (ins_tail t t false rest Ht).
      rewrite IH by lia.
      rewrite <- !app_assoc. cbn [app]. rewrite <- !app_assoc. reflexivity.
    + destruct s as [|x s]; [rewrite subn_with_nil; reflexivity|].
      rewrite subn_with_skip by exact E. cbn [fst].
      rewrite ins_miss by reflexivity. f_equal.
      rewrite IH by (cbn in L; lia).
      destruct (is_id_start x) eqn:S.
      * apply ins_state_irrelevant. eapply call_matcher_miss; eassumption.
      * unfold next_ok. rewrite S, andb_false_r. reflexivity.
Qed.

(** ** The method rules *)

Lemma method_matcher_inv : forall meth s rep rest,
  method_matcher meth s = Some (rep, rest) ->
  s = method_pat meth ++ rest /\ rep = method_rep meth.
Proof.
  intros meth s rep rest H. unfold method_matcher, literal_at in H.
  destruct (starts_with (method_pat meth) s) eqn:E; [|discriminate].
  injection H as <- <-. split; [|reflexivity].
  apply starts_with_split. exact E.
Qed.

Lemma method_matcher_grows : forall meth, grows_by_two (method_matcher meth).
Proof.
  intros meth s rep rest H.
  destruct (method_matcher_inv meth s rep rest H) as [-> ->].
  unfold method_pat, method_rep.
  repeat (rewrite length_app; cbn [length]).
  change (length (lit "(pool)")) with 6.
  change (length (lit "(&*pool)")) with 8. lia.
Qed.

Lemma is_method_id_chars : forall meth,
  is_method meth = true -> forallb is_id_char meth = true.
Proof.
  intros [|x u] H; [discriminate|].
  cbn [is_method] in H. apply andb_prop in H as [H1 H2].
  cbn [forallb]. rewrite (id_start_is_id_char x H1). exact H2.
Qed.

Lemma is_method_state : forall meth ok,
  is_method meth = true -> fold_left next_ok meth ok = true.
Proof.
  intros [|x u] ok H; [discriminate|].
  cbn [is_method] in H. apply andb_prop in H as [H1 H2].
  cbn [fold_left]. rewrite next_ok_start by exact H1.
  apply fold_next_ok_true. exact H2.
Qed.

(** On a method call and on its rewritten form the [(pool)] inserter ends
    with the same text. *)
Lemma ins_method_pat : forall meth ok z,
  is_method meth = true ->
  ins (lit "pool)") ok (method_pat meth ++ z)
  = method_rep meth ++ ins (lit "pool)") false z.
Proof.
  intros meth ok z H. unfold method_pat, method_rep.
  cbn [app]. rewrite ins_other by reflexivity. f_equal.
  rewrite <- !app_assoc.
  rewrite ins_no_paren by (apply id_chars_no_paren, is_method_id_chars, H).
  f_equal. rewrite is_method_state by exact H.
  change (lit "(pool)" ++ z) with (ch "(" :: lit "pool)" ++ z).
  rewrite ins_hit by apply starts_with_app.
  rewrite (ins_tail (lit "pool)") (lit "pool)") false z).
  - reflexivity.
  - split; [reflexivity|intros []; reflexivity].
Qed.

Lemma ins_method_rep : forall meth ok z,
  is_method meth = true ->
  ins (lit "pool)") ok (method_rep meth ++ z)
  = method_rep meth ++ ins (lit "pool)") false z.
Proof.
  intros meth ok z H. unfold method_rep.
  cbn [app]. rewrite ins_other by reflexivity. f_equal.
  rewrite <- !app_assoc.
  rewrite ins_no_paren by (apply id_chars_no_paren, is_method_id_chars, H).
  f_equal.
  change (lit "(&*pool)" ++ z) with (ch "(" :: lit "&*" ++ lit "pool)" ++ z).
  rewrite ins_miss by (apply andb_false_r).
  rewrite ins_amp_star.
  rewrite (ins_tail (lit "pool)") (lit "pool)") false z).
  - reflexivity.
  - split; [reflexivity|intros []; reflexivity].
Qed.

Lemma starts_with_sub_method : forall meth u s,
  no_dot u = true ->
  starts_with u (fst (subn_with (method_matcher meth) s)) = starts_with u s.
Proof.
  intros meth. induction u as [|c u IH]; intros s H; [reflexivity|].
  cbn [no_dot forallb] in H. apply andb_prop in H as [H1 H2].
  apply negb_true_iff in H1.
  destruct (method_matcher meth s) as [[rep rest]|] eqn:E.
  - destruct (method_matcher_grows meth s rep rest E) as [L _].
    rewrite (subn_with_hit _ _ _ _ E L). cbn [fst].
    destruct (method_matcher_inv meth s rep rest E) as [-> ->].
    unfold method_rep, method_pat. cbn [app starts_with].
    rewrite N.eqb_sym, H1. reflexivity.
  - destruct s as [|x s]; [rewrite subn_with_nil; reflexivity|].
    rewrite subn_with_skip by exact E. cbn [fst starts_with].
    rewrite IH by exact H2. reflexivity.
Qed.

(** The [(pool)] inserter does not see whether a method rule ran first. *)
Lemma ins_absorbs_method : forall meth, is_method meth = true ->
  forall s ok,
    ins (lit "pool)") ok (fst (subn_with (method_matcher meth) s))
    = ins (lit "pool)") ok s.
Proof.
  intros meth Hm s. remember (length s) as n eqn:L.
  assert (L' : length s <= n) by lia. clear L. revert s L'.
  induction n as [|n IH]; intros s L ok.
  - destruct s; [|cbn in L; lia]. rewrite subn_with_nil; reflexivity.
  - destruct (method_matcher meth s) as [[rep rest]|] eqn:E.
    + destruct (method_matcher_grows meth s rep rest E) as [L1 _].
      rewrite (subn_with_hit _ _ _ _ E L1). cbn [fst].
      destruct (method_matcher_inv meth s rep rest E) as [-> ->].
      rewrite ins_method_rep, ins_method_pat by exact Hm.
      rewrite IH by lia. reflexivity.
    + destruct s as [|x s]; [rewrite subn_with_nil; reflexivity|].
      rewrite subn_with_skip by exact E. cbn [fst].
      rewrite !ins_cons, starts_with_sub_method by reflexivity.
      rewrite !IH by (cbn in L; lia). reflexivity.
Qed.

(** ** Algebra of the inserter *)

(** The inserter writes after a parenthesis only, so it cannot change
    whether the text starts with a word free of parentheses. *)
Lemma starts_with_ins : forall t u ok s,
  no_paren u = true -> starts_with u (ins t ok s) = starts_with u s.
Proof.
  intros t. induction u as [|c u IH]; intros ok s H; [reflexivity|].
  cbn [no_paren forallb] in H. apply andb_prop in H as [H1 H2].
  apply negb_true_iff in H1.
  destruct s as [|x s]; [reflexivity|].
  rewrite ins_cons. cbn [starts_with].
  destruct (N.eqb x c) eqn:E.
  - apply N.eqb_eq in E. subst x. rewrite H1. cbn [andb starts_with].
    rewrite N.eqb_refl. apply IH. exact H2.
  - destruct (N.eqb x (ch "(") && ok && starts_with t s);
      cbn [starts_with]; rewrite E; reflexivity.
Qed.

Lemma ins_idempotent : forall t, plain_tail t ->
  forall s ok, ins t ok (ins t ok s) = ins t ok s.
Proof.
  intros t [T1 T2]. induction s as [|x s IH]; intros ok; [reflexivity|].
  rewrite (ins_cons t ok x s).
  destruct (N.eqb x (ch "(") && ok && starts_with t s) eqn:E.
  - apply andb_prop in E as [E1 E3]. apply andb_prop in E1 as [E1 E2].
    apply N.eqb_eq in E1. subst x ok.
    rewrite ins_miss by (rewrite T2; reflexivity).
    rewrite ins_amp_star, IH. reflexivity.
  - rewrite ins_cons, starts_with_ins, E by exact T1.
    rewrite IH. reflexivity.
Qed.

Lemma ins_commute : forall t1 t2, plain_tail t1 -> plain_tail t2 ->
  (forall z, starts_with t1 z = true -> starts_with t2 z = false) ->
  forall s ok, ins t1 ok (ins t2 ok s) = ins t2 ok (ins t1 ok s).
Proof.
  intros t1 t2 [A1 A2] [B1 B2] X. induction s as [|x s IH]; intros ok;
    [reflexivity|].
  rewrite (ins_cons t2 ok x s), (ins_cons t1 ok x s).
  destruct (N.eqb x (ch "(") && ok) eqn:E.
  - apply andb_prop in E as [E1 E2]. apply N.eqb_eq in E1. subst x ok.
    destruct (starts_with t1 s) eqn:S1.
    + rewrite (X s S1). cbn [andb].
      rewrite (ins_hit t1) by (rewrite starts_with_ins by exact A1; exact S1).
      rewrite (ins_miss t2 true) by (rewrite B2; reflexivity).
      rewrite ins_amp_star.
      change (next_ok true (ch "(")) with false.
      rewrite IH. reflexivity.
    + cbn [andb]. destruct (starts_with t2 s) eqn:S2.
      * rewrite (ins_miss t1 true) by (rewrite A2; reflexivity).
        rewrite ins_amp_star.
        rewrite (ins_hit t2) by (rewrite starts_with_ins by exact B1; exact S2).
        change (next_ok true (ch "(")) with false.
        rewrite IH. reflexivity.
      * rewrite (ins_miss t1 true)
          by (rewrite starts_with_ins by exact A1; exact S1).
        rewrite (ins_miss t2 true)
          by (rewrite starts_with_ins by exact B1; exact S2).
        rewrite IH. reflexivity.
  - cbn [andb]. rewrite !ins_cons, E. cbn [andb]. rewrite IH. reflexivity.
Qed.

(** ** Words the inserter passes over *)

Lemma starts_with_word : forall t w b,
  ends_with_stop t = true -> forallb is_id_char w = true ->
  length t <= length w -> starts_with t (w ++ b) = false.
Proof.
  induction t as [|c t IH]; intros w b E W L; [discriminate|].
  destruct w as [|y w]; [cbn in L; lia|].
  cbn [forallb] in W. apply andb_prop in W as [W1 W2].
  cbn [app starts_with]. destruct t as [|c' t].
  - cbn [ends_with_stop] in E. apply negb_true_iff in E.
    destruct (N.eqb y c) eqn:Q; [|reflexivity].
    apply N.eqb_eq in Q. subst y. congruence.
  - rewrite (IH w b); [apply andb_false_r|exact E|exact W2|cbn in *; lia].
Qed.

Lemma starts_with_before_word : forall a t w b,
  ends_with_stop t = true -> forallb is_id_char w = true ->
  length t <= length w ->
  starts_with t (a ++ w ++ b) = starts_with t a.
Proof.
  induction a as [|x a IH]; intros t w b E W L.
  - cbn [app]. rewrite starts_with_word by assumption.
    destruct t; [discriminate|reflexivity].
  - destruct t as [|c t]; [discriminate|].
    cbn [app starts_with]. destruct t as [|c' t].
    + reflexivity.
    + rewrite IH; [reflexivity|exact E|exact W|cbn in *; lia].
Qed.

(** An identifier of at least the tail's length splits the inserter's
    work: what precedes it is rewritten on its own. *)
Lemma ins_split : forall t w, ends_with_stop t = true ->
  is_method w = true -> length t <= length w ->
  forall a b ok, ins t ok (a ++ w ++ b) = ins t ok a ++ w ++ ins t true b.
Proof.
  intros t w E W L. induction a as [|x a IH]; intros b ok.
  - cbn [app ins].
    rewrite ins_no_paren by (apply id_chars_no_paren, is_method_id_chars, W).
    rewrite is_method_state by exact W. reflexivity.
  - cbn [app]. rewrite !ins_cons.
    rewrite starts_with_before_word
      by (try assumption; apply is_method_id_chars, W).
    destruct (N.eqb x (ch "(") && ok && starts_with t a);
      cbn [app]; rewrite IH; rewrite <- ?app_assoc; reflexivity.
Qed.

Lemma subseq_trans : forall b c, subseq b c -> forall a, subseq a b -> subseq a c.
Proof.
  induction 1 as [|x b c H IH|x b c H IH]; intros a' Ha.
  - exact Ha.
  - inversion Ha; subst.
    + apply subseq_keep. apply IH. assumption.
    + apply subseq_drop. apply IH. assumption.
  - apply subseq_drop. apply IH. exact Ha.
Qed.

Lemma subseq_ins : forall t s ok, subseq s (ins t ok s).
Proof.
  intros t. induction s as [|x s IH]; intros ok; [constructor|].
  rewrite ins_cons.
  destruct (N.eqb x (ch "(") && ok && starts_with t s).
  - apply subseq_keep. cbn [lit List.map list_ascii_of_string app].
    do 2 apply subseq_drop. apply IH.
  - apply subseq_keep. apply IH.
Qed.

(** ** The six substitutions in closed form *)

Lemma sub_method : forall meth s,
  sub (literal (method_pat meth)) [TLit (method_rep meth)] s
  = fst (subn_with (method_matcher meth) s).
Proof.
  intros meth s. unfold sub, subn. f_equal.
  apply subn_with_ext. intros u. apply match_at_literal.
Qed.

Lemma subn_call : forall t s,
  subn (pat_call (ch "(" :: t)) [TRef 1; TRef 2; TLit (ch "(" :: lit "&*" ++ t)] s
  = subn_with (call_matcher t) s.
Proof.
  intros t s. unfold subn. apply subn_with_ext. intros u.
  apply match_at_call. reflexivity.
Qed.

Lemma call_tail_comma : call_tail (lit "pool,").
Proof. split; [reflexivity|intros []; reflexivity]. Qed.

Lemma call_tail_paren : call_tail (lit "pool)").
Proof. split; [reflexivity|intros []; reflexivity]. Qed.

Lemma plain_tail_comma : plain_tail (lit "pool,").
Proof. split; reflexivity. Qed.

Lemma plain_tail_paren : plain_tail (lit "pool)").
Proof. split; reflexivity. Qed.

Lemma sub_call_comma : forall s,
  sub pat_call_comma rep_call_comma s = ins_comma s.
Proof.
  intros s. unfold sub, pat_call_comma, rep_call_comma.
  change (lit "(pool,") with (ch "(" :: lit "pool,").
  change (lit "(&*pool,") with (ch "(" :: lit "&*" ++ lit "pool,").
  rewrite subn_call. apply scan_call. exact call_tail_comma.
Qed.

Lemma sub_call_paren : forall s,
  sub pat_call_paren rep_call_paren s = ins_paren s.
Proof.
  intros s. unfold sub, pat_call_paren, rep_call_paren.
  change (lit "(pool)") with (ch "(" :: lit "pool)").
  change (lit "(&*pool)") with (ch "(" :: lit "&*" ++ lit "pool)").
  rewrite subn_call. apply scan_call. exact call_tail_paren.
Qed.

Lemma comma_excludes_paren : forall z,
  starts_with (lit "pool)") z = true -> starts_with (lit "pool,") z = false.
Proof.
  intros z H. apply starts_with_split in H. rewrite H. reflexivity.
Qed.

Lemma ins_paren_comma : forall s, ins_paren (ins_comma s) = ins_comma (ins_paren s).
Proof.
  intros s. unfold ins_paren, ins_comma.
  apply ins_commute;
    [exact plain_tail_paren|exact plain_tail_comma|exact comma_excludes_paren].
Qed.

Lemma ins_paren_method : forall meth s, is_method meth = true ->
  ins_paren (sub (literal (method_pat meth)) [TLit (method_rep meth)] s)
  = ins_paren s.
Proof.
  intros meth s H. rewrite sub_method. unfold ins_paren.
  apply ins_absorbs_method. exact H.
Qed.

(** The whole chain is the two inserters: the method rules rewrite nothing
    that the [(pool)] rule would not. *)
Lemma rewrite_inserters : forall c, rewrite c = ins_paren (ins_comma c).
Proof.
  intros c. unfold rewrite. rewrite sub_call_paren, sub_call_comma.
  rewrite ins_paren_comma.
  unfold pat_fetch_optional, rep_fetch_optional.
  rewrite (ins_paren_method (lit "fetch_optional")) by reflexivity.
  unfold pat_fetch_all, rep_fetch_all.
  rewrite (ins_paren_method (lit "fetch_all")) by reflexivity.
  unfold pat_fetch_one, rep_fetch_one.
  rewrite (ins_paren_method (lit "fetch_one")) by reflexivity.
  unfold pat_execute, rep_execute.
  rewrite (ins_paren_method (lit "execute")) by reflexivity.
  symmetry. apply ins_paren_comma.
Qed.

(** ** The script's effects *)

Lemma str_eqb_refl : forall a, str_eqb a a = true.
Proof.
  induction a as [|x a IH]; [reflexivity|].
  cbn. rewrite N.eqb_refl. exact IH.
Qed.

Lemma str_eqb_eq : forall a b, str_eqb a b = true <-> a = b.
Proof.
  induction a as [|x a IH]; intros [|y b]; cbn; split; intros H;
    try reflexivity; try discriminate.
  - apply andb_prop in H as [H1 H2]. apply N.eqb_eq in H1.
    apply IH in H2. congruence.
  - injection H as -> ->. rewrite N.eqb_refl. apply str_eqb_refl.
Qed.

(** [fix_pool_patterns] case by case. *)
Lemma fix_read_error : forall w p e,
  read_fails w p e ->
  fix_pool_patterns p w =
    (Ret false, printed (MsgError p e) (log_event (OpenRead p) w)).
Proof.
  intros w p e H. unfold read_fails in H.
  unfold fix_pool_patterns, try_except, bind, read_text.
  destruct (files w p) as [f|].
  - rewrite H. reflexivity.
  - subst e. reflexivity.
Qed.

Lemma fix_unchanged : forall w p f,
  files w p = Some f -> read_fault f = None ->
  rewrite (text f) = text f ->
  fix_pool_patterns p w = (Ret false, log_event (OpenRead p) w).
Proof.
  intros w p f F R U.
  unfold fix_pool_patterns, try_except, bind, read_text.
  rewrite F, R, U, str_eqb_refl. reflexivity.
Qed.

Lemma fix_changed : forall w p f,
  files w p = Some f -> read_fault f = None ->
  rewrite (text f) <> text f ->
  fix_pool_patterns p w =
    let w1 := log_event (OpenWrite p) (log_event (OpenRead p) w) in
    match open_fault f with
    | Some e => (Ret false, printed (MsgError p e) w1)
    | None =>
        match write_fault f with
        | Some (n, e) =>
            (Ret false,
             printed (MsgError p e)
               (set_file p (mkfile (firstn n (rewrite (text f)))
                                   (read_fault f) (open_fault f)
                                   (write_fault f)) w1))
        | None =>
            (Ret true,
             printed (MsgFixed p)
               (set_file p (mkfile (rewrite (text f)) (read_fault f)
                                   (open_fault f) (write_fault f)) w1))
        end
    end.
Proof.
  intros w p f F R U.
  unfold fix_pool_patterns, try_except, bind, read_text.
  rewrite F, R.
  destruct (str_eqb (rewrite (text f)) (text f)) eqn:E.
  - apply str_eqb_eq in E. contradiction.
  - cbn [negb]. unfold write_text. cbn [log_event files]. rewrite F, ?R.
    destruct (open_fault f) as [e|]; [reflexivity|].
    destruct (write_fault f) as [[n e]|]; reflexivity.
Qed.

Lemma reads_app : forall a b, reads (a ++ b) = reads a ++ reads b.
Proof. intros a b. unfold reads. apply flat_map_app. Qed.

(** Whatever happens to the file, the call returns: it opens the file for
    reading once and leaves the directory listing alone. *)
Lemma fix_returns : forall p w,
  exists b w',
    fix_pool_patterns p w = (Ret b, w') /\
    reads (events w') = reads (events w) ++ [p].
Proof.
  intros p w.
  destruct (files w p) as [f|] eqn:F.
  - destruct (read_fault f) as [e|] eqn:R.
    + exists false. eexists. split.
      * apply fix_read_error. unfold read_fails. rewrite F. exact R.
      * cbn. apply reads_app.
    + destruct (str_eqb (rewrite (text f)) (text f)) eqn:E.
      * apply str_eqb_eq in E. exists false. eexists. split.
        -- eapply fix_unchanged; eassumption.
        -- cbn. apply reads_app.
      * assert (U : rewrite (text f) <> text f).
        { intros U. apply str_eqb_eq in U. congruence. }
        rewrite (fix_changed w p f F R U). cbn zeta.
        destruct (open_fault f) as [e|];
          [|destruct (write_fault f) as [[n e]|]];
          eexists; eexists; (split; [reflexivity|]);
          cbn; rewrite !reads_app; cbn; rewrite <- ?app_assoc; cbn;
          rewrite ?app_nil_r; reflexivity.
  - exists false. eexists. split.
    + apply fix_read_error. unfold read_fails. rewrite F. reflexivity.
    + cbn. apply reads_app.
Qed.

(** The loop visits every file of the listing, whatever the outcomes. *)
Lemma for_files_returns : forall l n w,
  exists k w',
    for_files l n w = (Ret k, w') /\
    reads (events w') = reads (events w) ++ l.
Proof.
  induction l as [|p l IH]; intros n w.
  - exists n, w. split; [reflexivity|]. symmetry. apply app_nil_r.
  - destruct (fix_returns p w) as (b & w1 & F & R).
    destruct (IH (if b then S n else n) w1) as (k & w2 & G & R2).
    exists k, w2. split.
    + cbn [for_files]. unfold bind at 1. rewrite F. exact G.
    + rewrite R2, R, <- app_assoc. reflexivity.
Qed.

Lemma for_files_skip : forall p rest n w b w1,
  fix_pool_patterns p w = (Ret b, w1) ->
  for_files (p :: rest) n w = for_files rest (if b then S n else n) w1.
Proof.
  intros p rest n w b w1 H. cbn [for_files]. unfold bind at 1.
  rewrite H. reflexivity.
Qed.

(** ** Rules that match nowhere, and rules that match *)

Lemma search_false : forall r s u,
  search r s = false -> In u (tails s) -> match_groups r u = None.
Proof.
  intros r s u H I. unfold search in H.
  destruct (match_groups r u) eqn:E; [|reflexivity].
  assert (X : existsb (fun u => match match_groups r u with
                                | Some _ => true
                                | None => false
                                end) (tails s) = true).
  { apply existsb_exists. exists u. split; [exact I|]. rewrite E. reflexivity. }
  congruence.
Qed.

Lemma subn_no_match : forall r t s, search r s = false -> subn r t s = (s, 0).
Proof.
  intros r t s H. unfold subn. apply subn_with_no_match.
  intros u I. unfold match_at. rewrite (search_false r s u H I). reflexivity.
Qed.

Lemma rewrite_apply_rules : forall c, rewrite c = apply_rules rules c.
Proof. reflexivity. Qed.

Lemma apply_rules_cons : forall r rs c,
  apply_rules (r :: rs) c = apply_rules rs (sub (fst r) (snd r) c).
Proof. reflexivity. Qed.

Lemma apply_rules_no_match : forall rs c,
  (forall r, In r rs -> search (fst r) c = false) -> apply_rules rs c = c.
Proof.
  induction rs as [|r rs IH]; intros c H; [reflexivity|].
  rewrite apply_rules_cons.
  unfold sub. rewrite subn_no_match by (apply H; left; reflexivity).
  cbn [fst]. apply IH. intros r' I. apply H. right. exact I.
Qed.


Lemma method_rule_grows : forall meth,
  growing_rule (literal (method_pat meth), [TLit (method_rep meth)]).
Proof.
  intros meth. exists (method_matcher meth). split.
  - apply method_matcher_grows.
  - intros s. unfold subn. apply subn_with_ext. intros u.
    apply match_at_literal.
Qed.

Lemma call_rule_grows : forall t,
  growing_rule (pat_call (ch "(" :: t),
                [TRef 1; TRef 2; TLit (ch "(" :: lit "&*" ++ t)]).
Proof.
  intros t. exists (call_matcher t). split.
  - apply call_matcher_grows.
  - intros s. apply subn_call.
Qed.

Lemma rules_grow : forall r, In r rules -> growing_rule r.
Proof.
  intros r H. unfold rules in H. cbn [In] in H.
  destruct H as [<-|[<-|[<-|[<-|[<-|[<-|[]]]]]]].
  - exact (method_rule_grows (lit "execute")).
  - exact (method_rule_grows (lit "fetch_one")).
  - exact (method_rule_grows (lit "fetch_all")).
  - exact (method_rule_grows (lit "fetch_optional")).
  - exact (call_rule_grows (lit "pool,")).
  - exact (call_rule_grows (lit "pool)")).
Qed.

Lemma growing_rule_length : forall r s, growing_rule r ->
  length (fst (subn (fst r) (snd r) s))
  = length s + 2 * snd (subn (fst r) (snd r) s).
Proof.
  intros r s (m & G & E). rewrite E.
  apply (subn_with_length m (length s)); [lia|exact G].
Qed.

Lemma growing_rule_zero : forall r s, growing_rule r ->
  snd (subn (fst r) (snd r) s) = 0 -> fst (subn (fst r) (snd r) s) = s.
Proof.
  intros r s (m & G & E). rewrite E.
  apply (subn_with_zero m (length s)); [lia|apply grows_consuming, G].
Qed.

Lemma counting_fst : forall rs c,
  fst (apply_rules_counting rs c) = apply_rules rs c.
Proof.
  induction rs as [|r rs IH]; intros c; [reflexivity|].
  cbn [apply_rules_counting]. rewrite apply_rules_cons. unfold sub.
  destruct (subn (fst r) (snd r) c) as [c1 n]. cbn [fst].
  rewrite <- IH. destruct (apply_rules_counting rs c1). reflexivity.
Qed.

Lemma counting_length : forall rs c,
  (forall r, In r rs -> growing_rule r) ->
  length (apply_rules rs c)
  = length c + 2 * list_sum (snd (apply_rules_counting rs c)).
Proof.
  induction rs as [|r rs IH]; intros c H; [cbn; lia|].
  assert (G : growing_rule r) by (apply H; left; reflexivity).
  pose proof (growing_rule_length r c G) as L.
  cbn [apply_rules_counting]. rewrite apply_rules_cons. unfold sub.
  destruct (subn (fst r) (snd r) c) as [c1 n]. cbn [fst snd] in *.
  rewrite IH by (intros r' I; apply H; right; exact I).
  destruct (apply_rules_counting rs c1) as [c2 ns]. cbn [snd list_sum fold_right]. lia.
Qed.

Lemma counting_zero : forall rs c,
  (forall r, In r rs -> growing_rule r) ->
  list_sum (snd (apply_rules_counting rs c)) = 0 -> apply_rules rs c = c.
Proof.
  induction rs as [|r rs IH]; intros c H Z; [reflexivity|].
  assert (G : growing_rule r) by (apply H; left; reflexivity).
  pose proof (growing_rule_zero r c G) as L.
  cbn [apply_rules_counting] in Z. rewrite apply_rules_cons. unfold sub.
  destruct (subn (fst r) (snd r) c) as [c1 n]. cbn [fst snd] in *.
  specialize (IH c1).
  destruct (apply_rules_counting rs c1) as [c2 ns]. cbn [snd list_sum fold_right] in *.
  rewrite IH; [apply L; lia| |lia].
  intros r' I. apply H. right. exact I.
Qed.

Lemma rewrite_split : forall w, is_method w = true -> 5 <= length w ->
  forall a b,
    rewrite (a ++ w ++ b)
    = rewrite a ++ w ++ ins (lit "pool)") true (ins (lit "pool,") true b).
Proof.
  intros w W L a b. rewrite !rewrite_inserters. unfold ins_paren, ins_comma.
  rewrite (ins_split (lit "pool,") w) by (try assumption; reflexivity).
  rewrite (ins_split (lit "pool)") w) by (try assumption; reflexivity).
  reflexivity.
Qed.

Lemma rewrite_word : forall w, is_method w = true -> 5 <= length w ->
  forall a b, exists b',
    rewrite (a ++ w ++ b) = rewrite a ++ w ++ b' /\
    rewrite (w ++ b) = w ++ b'.
Proof.
  intros w W L a b. eexists. split.
  - apply rewrite_split; assumption.
  - apply (rewrite_split w W L [] b).
Qed.

Lemma ins_comma_idempotent : forall s, ins_comma (ins_comma s) = ins_comma s.
Proof. intros s. apply (ins_idempotent _ plain_tail_comma). Qed.

Lemma ins_paren_idempotent : forall s, ins_paren (ins_paren s) = ins_paren s.
Proof. intros s. apply (ins_idempotent _ plain_tail_paren). Qed.

(** ** Matches that are gone stay gone *)

Lemma insertion_refl : forall s, insertion s s.
Proof. induction s; constructor; assumption. Qed.

Lemma insertion_app : forall a a', insertion a a' ->
  forall b b', insertion b b' -> insertion (a ++ b) (a' ++ b').
Proof.
  induction 1 as [|x a a' H IH|a a' H IH]; intros b b' Hb.
  - exact Hb.
  - cbn [app]. apply insertion_copy. apply IH. exact Hb.
  - cbn [app]. rewrite <- app_assoc. apply insertion_add. apply IH. exact Hb.
Qed.

Lemma insertion_ins : forall t s ok, insertion s (ins t ok s).
Proof.
  intros t. induction s as [|x s IH]; intros ok; [constructor|].
  rewrite ins_cons.
  destruct (N.eqb x (ch "(") && ok && starts_with t s) eqn:E.
  - apply andb_prop in E as [E _]. apply andb_prop in E as [E _].
    apply N.eqb_eq in E. subst x. apply insertion_add. apply IH.
  - apply insertion_copy. apply IH.
Qed.

Lemma insertion_method : forall meth s,
  insertion s (fst (subn_with (method_matcher meth) s)).
Proof.
  intros meth s. remember (length s) as n eqn:L.
  assert (L' : length s <= n) by lia. clear L. revert s L'.
  induction n as [|n IH]; intros s L.
  - destruct s; [|cbn in L; lia]. rewrite subn_with_nil by reflexivity.
    constructor.
  - destruct (method_matcher meth s) as [[rep rest]|] eqn:E.
    + destruct (method_matcher_grows meth s rep rest E) as [L1 _].
      rewrite (subn_with_hit _ _ _ _ E L1). cbn [fst].
      destruct (method_matcher_inv meth s rep rest E) as [-> ->].
      apply insertion_app; [|apply IH; lia].
      unfold method_pat, method_rep. apply insertion_copy.
      apply insertion_app; [apply insertion_refl|].
      apply (insertion_add (lit "pool)") (lit "pool)")), insertion_refl.
    + destruct s as [|x s]; [rewrite subn_with_nil by exact E; constructor|].
      rewrite subn_with_skip by exact E. cbn [fst].
      apply insertion_copy. apply IH. cbn in L. lia.
Qed.

(** A word free of [&] and [*] that starts the text after the insertions
    started it before them. *)
Lemma starts_with_insertion : forall s s', insertion s s' ->
  forall p, no_amp_star p = true ->
    starts_with p s' = true -> starts_with p s = true.
Proof.
  induction 1 as [|x s s' H IH|s s' H IH]; intros p P S.
  - exact S.
  - destruct p as [|c p]; [reflexivity|].
    cbn [no_amp_star forallb] in P. apply andb_prop in P as [_ P].
    cbn [starts_with] in *. apply andb_prop in S as [S1 S2].
    rewrite S1. apply (IH p P S2).
  - destruct p as [|c p]; [reflexivity|].
    cbn [no_amp_star forallb] in P. apply andb_prop in P as [_ P].
    cbn [starts_with] in *. apply andb_prop in S as [S1 S2]. rewrite S1.
    destruct p as [|c' p]; [reflexivity|].
    cbn [forallb] in P. apply andb_prop in P as [P1 _].
    apply andb_prop in P1 as [P1 _]. apply negb_true_iff in P1.
    cbn [lit List.map list_ascii_of_string app starts_with] in S2.
    apply andb_prop in S2 as [S2 _]. rewrite N.eqb_sym in S2.
    change (N_of_ascii "&") with (ch "&") in S2. congruence.
Qed.

Lemma tails_self : forall s, In s (tails s).
Proof. intros [|x s]; left; reflexivity. Qed.

Lemma tails_cons : forall x s u, In u (tails s) -> In u (tails (x :: s)).
Proof. intros x s u H. right. exact H. Qed.

(** Insertions create no occurrence of such a word. *)
Lemma occurs_insertion : forall p, no_amp_star p = true -> p <> [] ->
  forall s s', insertion s s' ->
    (forall u, In u (tails s) -> starts_with p u = false) ->
    forall u', In u' (tails s') -> starts_with p u' = false.
Proof.
  intros p P N. induction 1 as [|x s s' H IH|s s' H IH]; intros Q u' I.
  - apply Q. exact I.
  - destruct I as [<-|I].
    + destruct (starts_with p (x :: s')) eqn:E; [|reflexivity].
      apply (starts_with_insertion _ _ (insertion_copy x _ _ H) p P) in E.
      rewrite (Q (x :: s) (tails_self _)) in E. discriminate.
    + apply IH; [|exact I]. intros u Hu. apply Q. apply tails_cons, Hu.
  - destruct I as [<-|I].
    + destruct (starts_with p (ch "(" :: lit "&*" ++ s')) eqn:E; [|reflexivity].
      apply (starts_with_insertion _ _ (insertion_add _ _ H) p P) in E.
      rewrite (Q (ch "(" :: s) (tails_self _)) in E. discriminate.
    + destruct p as [|c p]; [contradiction|].
      cbn [no_amp_star forallb] in P. apply andb_prop in P as [P1 P2].
      apply andb_prop in P1 as [Pa Ps]. apply negb_true_iff in Pa, Ps.
      cbn [lit List.map list_ascii_of_string app tails] in I.
      destruct I as [<-|I].
      { cbn [starts_with]. change (N_of_ascii "&") with (ch "&").
        rewrite N.eqb_sym, Pa. reflexivity. }
      cbn [tails] in I.
      destruct I as [<-|I].
      { cbn [starts_with]. change (N_of_ascii "*") with (ch "*").
        rewrite N.eqb_sym, Ps. reflexivity. }
      apply IH; [|destruct s'; exact I].
      intros u Hu. apply Q. apply tails_cons, Hu.
Qed.

Lemma id_char_plain : forall x, is_id_char x = true ->
  negb (N.eqb x (ch "&")) && negb (N.eqb x (ch "*")) = true.
Proof.
  intros x H.
  destruct (N.eqb x (ch "&")) eqn:A;
    [apply N.eqb_eq in A; subst x; discriminate|].
  destruct (N.eqb x (ch "*")) eqn:B;
    [apply N.eqb_eq in B; subst x; discriminate|].
  reflexivity.
Qed.

Lemma id_char_no_dot : forall x, is_id_char x = true ->
  negb (N.eqb x (ch ".")) = true.
Proof.
  intros x H.
  destruct (N.eqb x (ch ".")) eqn:A;
    [apply N.eqb_eq in A; subst x; discriminate|].
  reflexivity.
Qed.

Lemma method_pat_plain : forall meth, is_method meth = true ->
  no_amp_star (method_pat meth) = true.
Proof.
  intros meth H. apply is_method_id_chars in H.
  unfold no_amp_star, method_pat.
  change (ch "." :: meth ++ lit "(pool)") with ([ch "."] ++ meth ++ lit "(pool)").
  rewrite !forallb_app.
  replace (forallb _ meth) with true; [reflexivity|].
  symmetry. apply forallb_forall. intros x I. apply id_char_plain.
  rewrite forallb_forall in H. apply H, I.
Qed.

Lemma method_rep_no_dot : forall meth, is_method meth = true ->
  no_dot (meth ++ lit "(&*pool)") = true.
Proof.
  intros meth H. apply is_method_id_chars in H.
  unfold no_dot. rewrite forallb_app.
  replace (forallb _ meth) with true; [reflexivity|].
  symmetry. apply forallb_forall. intros x I. apply id_char_no_dot.
  rewrite forallb_forall in H. apply H, I.
Qed.

Lemma starts_with_same : forall a p s,
  starts_with (a ++ p) (a ++ s) = starts_with p s.
Proof.
  induction a as [|x a IH]; intros p s; [reflexivity|].
  cbn [app starts_with]. rewrite N.eqb_refl. apply IH.
Qed.

Lemma method_pat_not_rep : forall meth z,
  starts_with (method_pat meth) (method_rep meth ++ z) = false.
Proof.
  intros meth z. unfold method_pat, method_rep.
  cbn [app starts_with]. rewrite N.eqb_refl, <- app_assoc, starts_with_same.
  reflexivity.
Qed.

(** Past a word without a dot, a tail either lies in what follows or does
    not start with a dot. *)
Lemma tails_no_dot : forall w b u, no_dot w = true ->
  In u (tails (w ++ b)) ->
  In u (tails b) \/ forall p, starts_with (ch "." :: p) u = false.
Proof.
  induction w as [|x w IH]; intros b u H I; [left; exact I|].
  cbn [no_dot forallb] in H. apply andb_prop in H as [H1 H2].
  apply negb_true_iff in H1. cbn [app tails] in I.
  destruct I as [<-|I].
  - right. intros p. cbn [starts_with]. rewrite H1. reflexivity.
  - apply IH; [exact H2|]. destruct (w ++ b); exact I.
Qed.

Lemma method_quiet_own : forall meth, is_method meth = true ->
  forall s u, In u (tails (fst (subn_with (method_matcher meth) s))) ->
    starts_with (method_pat meth) u = false.
Proof.
  intros meth Hm s. remember (length s) as n eqn:L.
  assert (L' : length s <= n) by lia. clear L. revert s L'.
  induction n as [|n IH]; intros s L u I.
  - destruct s; [|cbn in L; lia]. rewrite subn_with_nil in I by reflexivity.
    destruct I as [<-|[]]. reflexivity.
  - destruct (method_matcher meth s) as [[rep rest]|] eqn:E.
    + destruct (method_matcher_grows meth s rep rest E) as [L1 _].
      rewrite (subn_with_hit _ _ _ _ E L1) in I. cbn [fst] in I.
      destruct (method_matcher_inv meth s rep rest E) as [-> ->].
      unfold method_rep in I. cbn [app tails] in I. destruct I as [<-|I].
      * apply (method_pat_not_rep meth).
      * rewrite <- app_assoc in I.
        assert (I' : In u (tails (meth ++ lit "(&*pool)" ++
                     fst (subn_with (method_matcher meth) rest)))).
        { destruct (meth ++ lit "(&*pool)" ++ _); exact I. }
        rewrite app_assoc in I'.
        destruct (tails_no_dot _ _ u (method_rep_no_dot meth Hm) I') as [T|T].
        -- apply (IH rest); [lia|exact T].
        -- apply T.
    + destruct s as [|x s].
      * rewrite subn_with_nil in I by exact E.
        destruct I as [<-|[]]. reflexivity.
      * rewrite subn_with_skip in I by exact E. cbn [fst tails] in I.
        destruct I as [<-|I].
        -- destruct (starts_with (method_pat meth)
                       (x :: fst (subn_with (method_matcher meth) s))) eqn:S;
             [|reflexivity].
           apply (starts_with_insertion (x :: s)) in S;
             [|apply insertion_copy, insertion_method
              |apply method_pat_plain, Hm].
           unfold method_matcher, literal_at in E. rewrite S in E.
           discriminate.
        -- apply (IH s); [cbn in L; lia|].
           destruct (fst (subn_with (method_matcher meth) s)); exact I.
Qed.

Lemma rule_insertion : forall r, In r rules ->
  forall s, insertion s (sub (fst r) (snd r) s).
Proof.
  intros r H s. unfold rules in H. cbn [In] in H.
  destruct H as [<-|[<-|[<-|[<-|[<-|[<-|[]]]]]]]; cbn [fst snd].
  - rewrite (sub_method (lit "execute")). apply insertion_method.
  - rewrite (sub_method (lit "fetch_one")). apply insertion_method.
  - rewrite (sub_method (lit "fetch_all")). apply insertion_method.
  - rewrite (sub_method (lit "fetch_optional")). apply insertion_method.
  - rewrite sub_call_comma. apply insertion_ins.
  - rewrite sub_call_paren. apply insertion_ins.
Qed.

Lemma search_quiet : forall r t s, quiet (match_at r t) s -> search r s = false.
Proof.
  intros r t s Q. unfold search.
  destruct (existsb _ (tails s)) eqn:E; [|reflexivity].
  apply existsb_exists in E as (u & I & M).
  specialize (Q u I). unfold match_at in Q.
  destruct (match_groups r u) as [[g rest]|]; discriminate.
Qed.

Lemma search_method : forall meth s,
  (forall u, In u (tails s) -> starts_with (method_pat meth) u = false) ->
  search (literal (method_pat meth)) s = false.
Proof.
  intros meth s H. apply (search_quiet _ [TLit (method_rep meth)]).
  intros u I. rewrite match_at_literal. unfold literal_at.
  rewrite (H u I). reflexivity.
Qed.

(** Once a method rule has run, its pattern occurs nowhere, whichever
    rules of the script run afterwards. *)
Lemma method_gone : forall meth, is_method meth = true ->
  forall rs, incl rs rules ->
  forall s,
    search (literal (method_pat meth))
      (apply_rules rs
         (sub (literal (method_pat meth)) [TLit (method_rep meth)] s))
    = false.
Proof.
  intros meth Hm rs I s. apply search_method. rewrite sub_method.
  pose proof (method_quiet_own meth Hm s) as Q.
  revert Q. generalize (fst (subn_with (method_matcher meth) s)) as x.
  induction rs as [|r rs IH]; intros x Q; [exact Q|].
  rewrite apply_rules_cons. apply IH.
  - intros r' Hr. apply I. right. exact Hr.
  - apply (occurs_insertion (method_pat meth) (method_pat_plain meth Hm))
      with (s := x); [discriminate| |exact Q].
    apply rule_insertion. apply I. left. reflexivity.
Qed.

(** A scan that returns its input found no match in it. *)
Lemma fixed_point_quiet : forall m, grows_by_two m ->
  forall s, fst (subn_with m s) = s -> quiet m s.
Proof.
  intros m G. induction s as [|x s IH]; intros F u I.
  - destruct I as [<-|[]]. destruct (m []) as [[rep rest]|] eqn:E; [|reflexivity].
    apply G in E. cbn in E. lia.
  - destruct (m (x :: s)) as [[rep rest]|] eqn:E.
    + pose proof (subn_with_length m (length (x :: s)) (x :: s) (le_n _) G) as L.
      rewrite F in L. destruct (G _ _ _ E) as [L1 _].
      rewrite (subn_with_hit m _ _ _ E L1) in L. cbn [snd] in L. lia.
    + rewrite subn_with_skip in F by exact E. cbn [fst] in F.
      injection F as F. destruct I as [<-|I]; [exact E|].
      apply IH; [exact F|]. destruct s; exact I.
Qed.

Lemma search_call : forall t s,
  ins t false s = s -> call_tail t ->
  search (pat_call (ch "(" :: t)) s = false.
Proof.
  intros t s F T.
  apply (search_quiet _ [TRef 1; TRef 2; TLit (ch "(" :: lit "&*" ++ t)]).
  intros u I. rewrite match_at_call by reflexivity.
  apply (fixed_point_quiet (call_matcher t) (call_matcher_grows t) s);
    [|exact I].
  rewrite scan_call by exact T. exact F.
Qed.

Lemma comma_gone : forall s,
  search pat_call_comma (ins_comma s) = false /\
  search pat_call_comma (ins_paren (ins_comma s)) = false.
Proof.
  intros s. split.
  - apply (search_call (lit "pool,")); [|exact call_tail_comma].
    apply ins_comma_idempotent.
  - apply (search_call (lit "pool,")); [|exact call_tail_comma].
    fold (ins_comma (ins_paren (ins_comma s))).
    rewrite <- ins_paren_comma, ins_comma_idempotent. reflexivity.
Qed.

Lemma paren_gone : forall s, search pat_call_paren (ins_paren s) = false.
Proof.
  intros s. apply (search_call (lit "pool)")); [|exact call_tail_paren].
  apply ins_paren_idempotent.
Qed.

(** ** The stages of the chain *)

Lemma apply_rules_app : forall a b c,
  apply_rules (a ++ b) c = apply_rules b (apply_rules a c).
Proof. intros a b c. unfold apply_rules. apply fold_left_app. Qed.

Lemma stage_step : forall i c, i < length rules ->
  apply_rules (firstn (S i) rules) c =
    sub (fst (nth i rules (REmpty, []))) (snd (nth i rules (REmpty, [])))
        (apply_rules (firstn i rules) c).
Proof.
  intros i c H. change (length rules) with 6 in H.
  destruct i as [|[|[|[|[|[|i]]]]]]; try reflexivity; lia.
Qed.

Lemma stage_later : forall i j c, i <= j ->
  apply_rules (firstn j rules) c =
    apply_rules (firstn (j - i) (skipn i rules)) (apply_rules (firstn i rules) c).
Proof.
  intros i j c H. rewrite <- apply_rules_app. f_equal.
  rewrite <- (firstn_skipn i (firstn j rules)) at 1.
  rewrite firstn_firstn, skipn_firstn_comm.
  replace (Nat.min i j) with i by lia. reflexivity.
Qed.

Lemma incl_firstn_skipn : forall (A : Type) k m (l : list A),
  incl (firstn k (skipn m l)) l.
Proof.
  intros A k m l x H.
  rewrite <- (firstn_skipn m l). apply in_or_app. right.
  rewrite <- (firstn_skipn k (skipn m l)). apply in_or_app. left. exact H.
Qed.

(** The pattern of a rule matches nowhere in the text that any later
    stage of the chain holds. *)
Lemma matches_stay_gone : forall c i j,
  i < j -> j <= length rules ->
  search (fst (nth i rules (REmpty, []))) (apply_rules (firstn j rules) c)
  = false.
Proof.
  intros c i j Hij Hj.
  rewrite (stage_later (S i) j c) by lia.
  rewrite stage_step by lia.
  generalize (apply_rules (firstn i rules) c) as x. intros x.
  change (length rules) with 6 in Hj.
  destruct i as [|[|[|[|[|[|i]]]]]]; [| | | | | |lia].
  - apply (method_gone (lit "execute") eq_refl), incl_firstn_skipn.
  - apply (method_gone (lit "fetch_one") eq_refl), incl_firstn_skipn.
  - apply (method_gone (lit "fetch_all") eq_refl), incl_firstn_skipn.
  - apply (method_gone (lit "fetch_optional") eq_refl), incl_firstn_skipn.
  - change (nth 4 rules (REmpty, [])) with (pat_call_comma, rep_call_comma).
    cbn [fst snd]. rewrite sub_call_comma.
    assert (J : j = 5 \/ j = 6) by lia. destruct J as [-> | ->].
    + apply comma_gone.
    + change (apply_rules (firstn (6 - 5) (skipn 5 rules)) (ins_comma x))
        with (sub pat_call_paren rep_call_paren (ins_comma x)).
      rewrite sub_call_paren. apply comma_gone.
  - change (nth 5 rules (REmpty, [])) with (pat_call_paren, rep_call_paren).
    cbn [fst snd]. rewrite sub_call_paren.
    assert (J : j = 6) by lia. subst j. apply paren_gone.
Qed.

(** ** Properties of the script *)



(** C2.  The rewrite is idempotent: running the chain of six
    substitutions on its own output changes nothing. *)
Theorem rewrite_idempotent : forall c, rewrite (rewrite c) = rewrite c.
Proof.
  intros c. rewrite !rewrite_inserters.
  rewrite <- (ins_paren_comma (ins_comma c)).
  rewrite ins_comma_idempotent, ins_paren_idempotent. reflexivity.
Qed.

(** C3.  The rules run in the order of the list, each on the output of
    the rules before it: the text rule [i] scans is the result of rules
    [0..i-1], its output is what the rest of the chain works on, the text
    a later rule [j] scans is a function of that output alone, and the
    pattern of rule [i] matches nowhere in it: what rule [i] rewrote is
    not there to be matched again. *)
Theorem rules_applied_in_order : forall c i j,
  i < j -> j < length rules ->
  let r := nth i rules (REmpty, []) in
  let input_of k x := apply_rules (firstn k rules) x in
  let output_i := sub (fst r) (snd r) (input_of i c) in
  rewrite c = apply_rules rules c /\
  input_of (S i) c = output_i /\
  input_of j c = apply_rules (firstn (j - S i) (skipn (S i) rules)) output_i /\
  rewrite c = apply_rules (skipn (S i) rules) output_i /\
  (forall c', sub (fst r) (snd r) (input_of i c') = output_i ->
              input_of j c' = input_of j c) /\
  search (fst r) (input_of j c) = false.
Proof.
  intros c i j Hij Hj r input_of output_i.
  assert (Step : forall x, input_of (S i) x = sub (fst r) (snd r) (input_of i x))
    by (intros x; apply stage_step; lia).
  assert (Later : forall x,
            input_of j x =
            apply_rules (firstn (j - S i) (skipn (S i) rules)) (input_of (S i) x))
    by (intros x; apply stage_later; lia).
  split; [reflexivity|]. split; [apply Step|].
  split; [rewrite Later, Step; reflexivity|].
  split; [|split].
  - unfold output_i. rewrite <- Step. subst input_of. cbv beta.
    rewrite rewrite_apply_rules, <- apply_rules_app, firstn_skipn. reflexivity.
  - intros c' H. rewrite (Later c'), (Later c), !Step, H. reflexivity.
  - apply matches_stay_gone; lia.
Qed.

Lemma rules_applied_in_order_witness :
  0 < 5 /\ 5 < length rules /\
  apply_rules (firstn 5 rules) (lit "q.execute(pool)")
  = apply_rules (firstn 4 (skipn 1 rules))
      (sub pat_execute rep_execute (lit "q.execute(pool)")) /\
  search pat_execute (apply_rules (firstn 5 rules) (lit "q.execute(pool)"))
  = false.
Proof.
  assert (H1 : 0 < 5) by lia.
  assert (H2 : 5 < length rules) by (cbn; lia).
  split; [exact H1|]. split; [exact H2|].
  pose proof (rules_applied_in_order (lit "q.execute(pool)") 0 5 H1 H2) as P.
  cbv zeta in P. destruct P as (_ & _ & A & _ & _ & B).
  split; [exact A|exact B].
Defined.

(** C4.  Conservation: when no rule's pattern matches anywhere in a
    readable file, the rewritten text is the original, the file is opened
    for reading only, nothing is written or printed, and the call returns
    [False]. *)
Theorem conservation : forall w p f,
  files w p = Some f -> read_fault f = None ->
  (forall r, In r rules -> search (fst r) (text f) = false) ->
  rewrite (text f) = text f /\
  fix_pool_patterns p w = (Ret false, log_event (OpenRead p) w) /\
  writes (events (snd (fix_pool_patterns p w))) = writes (events w) /\
  files (snd (fix_pool_patterns p w)) = files w /\
  stdout (snd (fix_pool_patterns p w)) = stdout w.
Proof.
  intros w p f F R H.
  assert (U : rewrite (text f) = text f).
  { rewrite rewrite_apply_rules. apply apply_rules_no_match. exact H. }
  rewrite (fix_unchanged w p f F R U). cbn [snd log_event events files stdout].
  repeat split; try assumption.
  unfold writes. rewrite flat_map_app. cbn. apply app_nil_r.
Qed.

Lemma conservation_witness :
  files clean_world main_rs = Some clean_file /\
  read_fault clean_file = None /\
  (forall r, In r rules -> search (fst r) (text clean_file) = false) /\
  fix_pool_patterns main_rs clean_world =
    (Ret false, log_event (OpenRead main_rs) clean_world).
Proof.
  assert (H : forall r, In r rules -> search (fst r) (text clean_file) = false).
  { intros r I. unfold rules in I. cbn [In] in I.
    destruct I as [<-|[<-|[<-|[<-|[<-|[<-|[]]]]]]]; vm_compute; reflexivity. }
  split; [reflexivity|]. split; [reflexivity|]. split; [exact H|].
  apply (conservation clean_world main_rs clean_file);
    [reflexivity|reflexivity|exact H].
Defined.

(** C5.  Boundary matching: an occurrence of [poolmanager] or of [mypool]
    stays where it is, whatever surrounds it: the text before it is
    rewritten as it would be on its own and the word follows unaltered.
    The call texts [foo(poolmanager)] and [foo(mypool)] are not changed at
    all, while [foo(pool)] is. *)
Theorem boundary_matching : forall a b,
  (exists b',
     rewrite (a ++ lit "poolmanager" ++ b) = rewrite a ++ lit "poolmanager" ++ b' /\
     rewrite (lit "poolmanager" ++ b) = lit "poolmanager" ++ b') /\
  (exists b',
     rewrite (a ++ lit "mypool" ++ b) = rewrite a ++ lit "mypool" ++ b' /\
     rewrite (lit "mypool" ++ b) = lit "mypool" ++ b') /\
  rewrite (lit "foo(poolmanager)") = lit "foo(poolmanager)" /\
  rewrite (lit "foo(mypool)") = lit "foo(mypool)" /\
  rewrite (lit "foo(pool)") = lit "foo(&*pool)".
Proof.
  intros a b. split; [|split; [|split; [|split]]].
  - apply rewrite_word; [reflexivity|cbn; lia].
  - apply rewrite_word; [reflexivity|cbn; lia].
  - vm_compute. reflexivity.
  - vm_compute. reflexivity.
  - vm_compute. reflexivity.
Qed.

(** C6, as the code has it.  When the write raises after the file has
    been opened for writing, the exception is caught, the error line is
    printed and the call returns [False]; the file is not restored: it
    holds the part of the new text that was written before the failure. *)
Theorem failed_write_truncates : forall w p f n e,
  files w p = Some f -> read_fault f = None -> open_fault f = None ->
  write_fault f = Some (n, e) -> rewrite (text f) <> text f ->
  fst (fix_pool_patterns p w) = Ret false /\
  text_at (snd (fix_pool_patterns p w)) p = Some (firstn n (rewrite (text f))) /\
  stdout (snd (fix_pool_patterns p w)) = stdout w ++ [MsgError p e].
Proof.
  intros w p f n e F R O W U.
  rewrite (fix_changed w p f F R U). cbv zeta. rewrite O, W.
  cbn [fst snd]. split; [reflexivity|]. split; [|reflexivity].
  unfold text_at. cbn [printed set_file files]. rewrite String.eqb_refl.
  reflexivity.
Qed.

Lemma failed_write_truncates_witness :
  files (failing_world 5) db_rs = Some (failing_file 5) /\
  read_fault (failing_file 5) = None /\
  open_fault (failing_file 5) = None /\
  write_fault (failing_file 5) = Some (5, OSError 28) /\
  rewrite (text (failing_file 5)) <> text (failing_file 5) /\
  text_at (snd (fix_pool_patterns db_rs (failing_world 5))) db_rs
  = Some (firstn 5 (rewrite (text (failing_file 5)))).
Proof.
  assert (U : rewrite (text (failing_file 5)) <> text (failing_file 5))
    by (vm_compute; discriminate).
  repeat (split; [first [reflexivity | exact U]|]).
  apply (failed_write_truncates (failing_world 5) db_rs (failing_file 5)
           5 (OSError 28));
    first [reflexivity | exact U].
Defined.

(** C6, as stated, fails: a write that raises before anything reaches the
    file leaves the file empty, not as it was before the run. *)
Lemma failed_write_loses_original :
  write_fault (failing_file 0) = Some (0, OSError 28) /\
  text_at (failing_world 0) db_rs = Some (lit "q.execute(pool)") /\
  text_at (snd (fix_pool_patterns db_rs (failing_world 0))) db_rs = Some [] /\
  text_at (snd (fix_pool_patterns db_rs (failing_world 0))) db_rs
  <> text_at (failing_world 0) db_rs.
Proof.
  split; [reflexivity|]. split; [reflexivity|].
  split; [vm_compute; reflexivity|]. vm_compute. discriminate.
Qed.

(** The original survives a failure of the open itself. *)
Lemma failed_open_keeps_original : forall w p f e,
  files w p = Some f -> read_fault f = None -> open_fault f = Some e ->
  rewrite (text f) <> text f ->
  fst (fix_pool_patterns p w) = Ret false /\
  files (snd (fix_pool_patterns p w)) = files w.
Proof.
  intros w p f e F R O U.
  rewrite (fix_changed w p f F R U). cbv zeta. rewrite O.
  split; reflexivity.
Qed.

(** C7, as the code has it.  A file whose read raises is handled inside
    [fix_pool_patterns]: the exception is caught, the "Error processing"
    line is printed, no file is changed and the call returns [False], the
    value it also returns for an unchanged file; the loop goes on with the
    remaining files, the count untouched, and opens every one of them. *)
Theorem read_error_is_isolated : forall w p e rest n,
  read_fails w p e ->
  let w1 := printed (MsgError p e) (log_event (OpenRead p) w) in
  fix_pool_patterns p w = (Ret false, w1) /\
  files w1 = files w /\
  for_files (p :: rest) n w = for_files rest n w1 /\
  exists k w',
    for_files (p :: rest) n w = (Ret k, w') /\
    reads (events w') = reads (events w) ++ p :: rest.
Proof.
  intros w p e rest n H w1.
  pose proof (fix_read_error w p e H) as F. fold w1 in F.
  split; [exact F|]. split; [reflexivity|]. split.
  - apply (for_files_skip p rest n w false w1 F).
  - apply for_files_returns.
Qed.

Lemma read_error_is_isolated_witness :
  read_fails locked_world db_rs PermissionError /\
  for_files [db_rs; main_rs] 0 locked_world =
  for_files [main_rs] 0
    (printed (MsgError db_rs PermissionError)
       (log_event (OpenRead db_rs) locked_world)).
Proof.
  split; [reflexivity|].
  apply (read_error_is_isolated locked_world db_rs PermissionError
           [main_rs] 0).
  reflexivity.
Defined.

(** C7, as stated, fails: the call on a file that cannot be read and the
    call on a file the rules leave unchanged return the same value, so no
    status tells the two apart; the final count is the same as well. *)
Lemma error_status_is_not_distinct :
  read_fails locked_world db_rs PermissionError /\
  files locked_world main_rs = Some clean_file /\
  rewrite (text clean_file) = text clean_file /\
  fst (fix_pool_patterns db_rs locked_world) = Ret false /\
  fst (fix_pool_patterns main_rs locked_world) = Ret false /\
  fst (fix_pool_patterns db_rs locked_world)
  = fst (fix_pool_patterns main_rs locked_world) /\
  fst (for_files [db_rs; main_rs] 0 locked_world) = Ret 0 /\
  fst (for_files [main_rs] 0 clean_world) = Ret 0.
Proof.
  split; [reflexivity|]. split; [reflexivity|].
  repeat split; vm_compute; reflexivity.
Qed.



(** C9.  The four method rules are subsumed by the two call rules: the
    two call substitutions alone give the text the six give. *)
Theorem method_rules_subsumed : forall c,
  sub pat_call_paren rep_call_paren (sub pat_call_comma rep_call_comma c)
  = rewrite c.
Proof.
  intros c. rewrite sub_call_paren, sub_call_comma, rewrite_inserters.
  reflexivity.
Qed.

(** C10.  The rewrite only inserts: the input is the output with some
    characters left out, every replacement any of the six calls makes adds
    two characters, so the output is never shorter than the input and is
    longer exactly when it differs from it. *)
Theorem rewrite_only_inserts : forall c,
  length c <= length (rewrite c) /\
  (length c < length (rewrite c) <-> rewrite c <> c) /\
  fst (apply_rules_counting rules c) = rewrite c /\
  length (rewrite c)
  = length c + 2 * list_sum (snd (apply_rules_counting rules c)) /\
  subseq c (rewrite c).
Proof.
  intros c.
  pose proof (counting_length rules c rules_grow) as L.
  pose proof (counting_zero rules c rules_grow) as Z.
  rewrite <- rewrite_apply_rules in L, Z.
  split; [lia|]. split; [|split; [apply counting_fst|split; [exact L|]]].
  - split.
    + intros H E. rewrite E in H. lia.
    + intros H.
      destruct (list_sum (snd (apply_rules_counting rules c))) as [|k];
        [|lia].
      exfalso. apply H. apply Z. reflexivity.
  - rewrite rewrite_inserters. unfold ins_paren, ins_comma.
    apply (subseq_trans _ _ (subseq_ins _ _ _)), subseq_ins.
Qed.

(** ** Further properties of the script *)

(** ** The inserter around a parenthesis *)

Lemma state_after : forall x,
  fold_left next_ok x false = after_identifier x.
Proof.
  induction x as [|c x IH] using rev_ind; [reflexivity|].
  rewrite fold_left_app. cbn [fold_left]. unfold after_identifier.
  rewrite rev_app_distr. cbn [rev app take_id].
  destruct (is_id_char c) eqn:E.
  - cbn [existsb]. rewrite IH. unfold next_ok. rewrite E, andb_true_l.
    reflexivity.
  - rewrite next_ok_stop by exact E. reflexivity.
Qed.

Lemma state_after_ins : forall t x ok,
  fold_left next_ok (ins t ok x) ok = fold_left next_ok x ok.
Proof.
  intros t. induction x as [|a x IH]; intros ok; [reflexivity|].
  rewrite ins_cons.
  destruct (N.eqb a (ch "(") && ok && starts_with t x) eqn:E.
  - apply andb_prop in E as [E _]. apply andb_prop in E as [E _].
    apply N.eqb_eq in E. subst a.
    cbn [fold_left lit List.map list_ascii_of_string app].
    change (next_ok (next_ok (next_ok ok (ch "(")) (N_of_ascii "&"))
              (N_of_ascii "*")) with false.
    change (next_ok ok (ch "(")) with false. apply IH.
  - cbn [fold_left]. apply IH.
Qed.

Lemma starts_with_to_paren : forall t x y,
  no_paren t = true ->
  starts_with t (x ++ ch "(" :: y) = starts_with t x.
Proof.
  induction t as [|c t IH]; intros x y H; [reflexivity|].
  cbn [no_paren forallb] in H. apply andb_prop in H as [H1 H2].
  apply negb_true_iff in H1.
  destruct x as [|a x].
  - cbn [app starts_with]. rewrite N.eqb_sym, H1. reflexivity.
  - cbn [app starts_with]. rewrite (IH x y H2). reflexivity.
Qed.

(** The inserter decides about a parenthesis from the identifier before it
    and the text after it: what precedes the parenthesis is rewritten on
    its own. *)
Lemma ins_at_paren : forall t, no_paren t = true ->
  forall x y ok,
    ins t ok (x ++ ch "(" :: y)
    = ins t ok x ++ ins t (fold_left next_ok x ok) (ch "(" :: y).
Proof.
  intros t T. induction x as [|a x IH]; intros y ok; [reflexivity|].
  cbn [app fold_left]. rewrite (ins_cons t ok a (x ++ ch "(" :: y)).
  rewrite (ins_cons t ok a x), starts_with_to_paren by exact T.
  destruct (N.eqb a (ch "(") && ok && starts_with t x) eqn:E.
  - apply andb_prop in E as [E _]. apply andb_prop in E as [E _].
    apply N.eqb_eq in E. subst a.
    change (next_ok ok (ch "(")) with false.
    rewrite IH, <- ?app_assoc. reflexivity.
  - cbn [app]. rewrite IH. reflexivity.
Qed.

Lemma ins_site : forall t t' st y,
  call_tail t ->
  ins t' st (ch "(" :: t ++ y) =
    ch "(" :: (if st && starts_with t' (t ++ y) then lit "&*" else [])
      ++ t ++ ins t' false y.
Proof.
  intros t t' st y T. rewrite ins_cons.
  change (N.eqb (ch "(") (ch "(")) with true. cbn [andb].
  change (next_ok st (ch "(")) with false.
  destruct (st && starts_with t' (t ++ y));
    rewrite (ins_tail t t' false y T); reflexivity.
Qed.

Lemma ins_site_marked : forall t t' st y,
  call_tail t -> plain_tail t' ->
  ins t' st (ch "(" :: lit "&*" ++ t ++ y) =
    ch "(" :: lit "&*" ++ t ++ ins t' false y.
Proof.
  intros t t' st y T [_ P].
  rewrite ins_miss by (rewrite P; apply andb_false_r).
  rewrite ins_amp_star, (ins_tail t t' false y T). reflexivity.
Qed.

Lemma rewrite_at_paren_call : forall x y,
  rewrite (x ++ lit "(pool)" ++ y)
  = rewrite x
    ++ (if after_identifier x then lit "(&*pool)" else lit "(pool)")
    ++ rewrite y.
Proof.
  intros x y. rewrite !rewrite_inserters. unfold ins_paren, ins_comma.
  change (lit "(pool)" ++ y) with (ch "(" :: lit "pool)" ++ y).
  rewrite (ins_at_paren (lit "pool,")) by reflexivity.
  rewrite (ins_site (lit "pool)") (lit "pool,")) by exact call_tail_paren.
  change (starts_with (lit "pool,") (lit "pool)" ++ y)) with false.
  rewrite andb_false_r. cbn [app].
  rewrite (ins_at_paren (lit "pool)")) by reflexivity.
  rewrite state_after_ins, state_after.
  rewrite (ins_site (lit "pool)") (lit "pool)")) by exact call_tail_paren.
  rewrite starts_with_app, andb_true_r.
  destruct (after_identifier x); reflexivity.
Qed.

Lemma rewrite_at_comma_call : forall x y,
  rewrite (x ++ lit "(pool," ++ y)
  = rewrite x
    ++ (if after_identifier x then lit "(&*pool," else lit "(pool,")
    ++ rewrite y.
Proof.
  intros x y. rewrite !rewrite_inserters. unfold ins_paren, ins_comma.
  change (lit "(pool," ++ y) with (ch "(" :: lit "pool," ++ y).
  rewrite (ins_at_paren (lit "pool,")) by reflexivity.
  rewrite state_after.
  rewrite (ins_site (lit "pool,") (lit "pool,")) by exact call_tail_comma.
  rewrite starts_with_app, andb_true_r.
  destruct (after_identifier x).
  - rewrite (ins_at_paren (lit "pool)")) by reflexivity.
    rewrite (ins_site_marked (lit "pool,") (lit "pool)"))
      by (exact call_tail_comma || exact plain_tail_paren).
    reflexivity.
  - cbn [app]. rewrite (ins_at_paren (lit "pool)")) by reflexivity.
    rewrite (ins_site (lit "pool,") (lit "pool)")) by exact call_tail_comma.
    change (starts_with (lit "pool)") (lit "pool," ++ ins (lit "pool,") false y))
      with false.
    rewrite andb_false_r. reflexivity.
Qed.

(** X1.  A call text [(pool)] or [(pool,] is rewritten exactly when the
    text before it ends in an identifier (a run of letters, digits and
    underscores that holds a letter or an underscore); the text before and
    the text after are rewritten as they would be on their own. *)
Theorem rewrite_around_call : forall x y,
  rewrite (x ++ lit "(pool)" ++ y)
  = rewrite x
    ++ (if after_identifier x then lit "(&*pool)" else lit "(pool)")
    ++ rewrite y /\
  rewrite (x ++ lit "(pool," ++ y)
  = rewrite x
    ++ (if after_identifier x then lit "(&*pool," else lit "(pool,")
    ++ rewrite y.
Proof.
  intros x y. split;
    [apply rewrite_at_paren_call|apply rewrite_at_comma_call].
Qed.

(** ** The inserter at a separator *)

Lemma starts_with_to_char : forall t d x y,
  lacks d t = true ->
  starts_with t (x ++ d :: y) = starts_with t x.
Proof.
  induction t as [|c t IH]; intros d x y H; [reflexivity|].
  cbn [lacks forallb] in H. apply andb_prop in H as [H1 H2].
  apply negb_true_iff in H1.
  destruct x as [|a x].
  - cbn [app starts_with]. rewrite N.eqb_sym, H1. reflexivity.
  - cbn [app starts_with]. rewrite (IH d x y H2). reflexivity.
Qed.

Lemma ins_at_separator : forall t d,
  lacks d t = true -> is_id_char d = false -> N.eqb d (ch "(") = false ->
  forall x y ok,
    ins t ok (x ++ d :: y) = ins t ok x ++ d :: ins t false y.
Proof.
  intros t d T I P. induction x as [|a x IH]; intros y ok.
  - cbn [app]. rewrite ins_other by exact P.
    rewrite next_ok_stop by exact I. reflexivity.
  - cbn [app]. rewrite (ins_cons t ok a (x ++ d :: y)).
    rewrite (ins_cons t ok a x), starts_with_to_char by exact T.
    destruct (N.eqb a (ch "(") && ok && starts_with t x);
      cbn [app]; rewrite IH, <- ?app_assoc; reflexivity.
Qed.

(** X2.  The rewrite works between separators: at a character that is
    no identifier character, parenthesis or comma (a newline, a blank, a
    semicolon), the text before and the text after are rewritten
    independently of each other.  In particular each line of a file is
    rewritten on its own. *)
Theorem rewrite_at_separator : forall d x y,
  separator d = true ->
  rewrite (x ++ d :: y) = rewrite x ++ d :: rewrite y.
Proof.
  intros d x y H. unfold separator in H.
  apply andb_prop in H as [H Hr]. apply andb_prop in H as [H Hc].
  apply andb_prop in H as [Hi Hp].
  apply negb_true_iff in Hi, Hp, Hc, Hr.
  rewrite !rewrite_inserters. unfold ins_paren, ins_comma.
  rewrite (ins_at_separator (lit "pool,") d), (ins_at_separator (lit "pool)") d);
    try assumption; try reflexivity.
  - cbn [lacks lit List.map list_ascii_of_string forallb].
    change (N_of_ascii ")") with (ch ")").
    rewrite (N.eqb_sym (ch ")") d), Hr.
    repeat (match goal with
            | |- context [N.eqb ?c d] =>
                let E := fresh in
                destruct (N.eqb c d) eqn:E;
                [apply N.eqb_eq in E; subst d; discriminate|]
            end).
    reflexivity.
  - cbn [lacks lit List.map list_ascii_of_string forallb].
    change (N_of_ascii ",") with (ch ",").
    rewrite (N.eqb_sym (ch ",") d), Hc.
    repeat (match goal with
            | |- context [N.eqb ?c d] =>
                let E := fresh in
                destruct (N.eqb c d) eqn:E;
                [apply N.eqb_eq in E; subst d; discriminate|]
            end).
    reflexivity.
Qed.

Lemma rewrite_at_separator_witness :
  separator nl = true /\
  rewrite (lit "a(pool)" ++ nl :: lit "b(pool, c)")
  = rewrite (lit "a(pool)") ++ nl :: rewrite (lit "b(pool, c)").
Proof.
  split; [reflexivity|].
  apply (rewrite_at_separator nl (lit "a(pool)") (lit "b(pool, c)")).
  reflexivity.
Defined.

(** ** The rules in another order *)

Lemma method_sub_hit : forall meth rest,
  method_sub meth (method_pat meth ++ rest)
  = method_rep meth ++ method_sub meth rest.
Proof.
  intros meth rest. unfold method_sub.
  assert (E : method_matcher meth (method_pat meth ++ rest)
              = Some (method_rep meth, rest)).
  { unfold method_matcher, literal_at. rewrite starts_with_app.
    rewrite skipn_app, Nat.sub_diag, skipn_all. reflexivity. }
  destruct (method_matcher_grows meth _ _ _ E) as [L _].
  rewrite (subn_with_hit _ _ _ _ E L). reflexivity.
Qed.

Lemma method_sub_skip : forall meth x s,
  method_matcher meth (x :: s) = None ->
  method_sub meth (x :: s) = x :: method_sub meth s.
Proof.
  intros meth x s E. unfold method_sub.
  rewrite subn_with_skip by exact E. reflexivity.
Qed.

Lemma method_sub_other : forall meth x s,
  N.eqb x (ch ".") = false ->
  method_sub meth (x :: s) = x :: method_sub meth s.
Proof.
  intros meth x s H. apply method_sub_skip.
  unfold method_matcher, literal_at, method_pat. cbn [starts_with].
  rewrite H. reflexivity.
Qed.

(** On a method call and on its rewritten form the [(pool,] inserter
    inserts nothing. *)
Lemma ins_comma_method_pat : forall meth ok z,
  is_method meth = true ->
  ins (lit "pool,") ok (method_pat meth ++ z)
  = method_pat meth ++ ins (lit "pool,") false z.
Proof.
  intros meth ok z H. unfold method_pat.
  cbn [app]. rewrite ins_other by reflexivity. f_equal.
  rewrite <- !app_assoc.
  rewrite ins_no_paren by (apply id_chars_no_paren, is_method_id_chars, H).
  f_equal.
  change (lit "(pool)" ++ z) with (ch "(" :: lit "pool)" ++ z).
  rewrite ins_miss by (apply andb_false_r).
  rewrite (ins_tail (lit "pool)") (lit "pool,") _ z call_tail_paren).
  reflexivity.
Qed.

Lemma ins_comma_method_rep : forall meth ok z,
  is_method meth = true ->
  ins (lit "pool,") ok (method_rep meth ++ z)
  = method_rep meth ++ ins (lit "pool,") false z.
Proof.
  intros meth ok z H. unfold method_rep.
  cbn [app]. rewrite ins_other by reflexivity. f_equal.
  rewrite <- !app_assoc.
  rewrite ins_no_paren by (apply id_chars_no_paren, is_method_id_chars, H).
  f_equal.
  change (lit "(&*pool)" ++ z) with (ch "(" :: lit "&*" ++ lit "pool)" ++ z).
  rewrite ins_miss by (apply andb_false_r).
  rewrite ins_amp_star.
  rewrite (ins_tail (lit "pool)") (lit "pool,") _ z call_tail_paren).
  reflexivity.
Qed.

(** A method rule and the [(pool,] rule do not see each other. *)
Lemma comma_method_commute : forall meth, is_method meth = true ->
  forall s ok,
    ins (lit "pool,") ok (method_sub meth s)
    = method_sub meth (ins (lit "pool,") ok s).
Proof.
  intros meth Hm s. remember (length s) as n eqn:L.
  assert (L' : length s <= n) by lia. clear L. revert s L'.
  induction n as [|n IH]; intros s L ok.
  - destruct s; [|cbn in L; lia]. reflexivity.
  - destruct (method_matcher meth s) as [[rep rest]|] eqn:E.
    + destruct (method_matcher_grows meth s rep rest E) as [L1 _].
      destruct (method_matcher_inv meth s rep rest E) as [-> ->].
      rewrite method_sub_hit, ins_comma_method_rep by exact Hm.
      rewrite ins_comma_method_pat, method_sub_hit by exact Hm.
      rewrite IH by lia. reflexivity.
    + destruct s as [|x s]; [reflexivity|].
      rewrite method_sub_skip by exact E.
      rewrite !ins_cons.
      unfold method_sub at 1. rewrite starts_with_sub_method by reflexivity.
      fold (method_sub meth s).
      destruct (N.eqb x (ch "(") && ok && starts_with (lit "pool,") s) eqn:C.
      * apply andb_prop in C as [C _]. apply andb_prop in C as [C _].
        apply N.eqb_eq in C. subst x.
        cbn [lit List.map list_ascii_of_string app].
        rewrite !method_sub_other by reflexivity.
        rewrite IH by (cbn in L; lia). reflexivity.
      * rewrite method_sub_skip.
        -- rewrite IH by (cbn in L; lia). reflexivity.
        -- unfold method_matcher, literal_at in *.
           destruct (starts_with (method_pat meth)
                       (x :: ins (lit "pool,") (next_ok ok x) s)) eqn:S;
             [|reflexivity].
           apply (starts_with_insertion (x :: s)) in S;
             [|apply insertion_copy, insertion_ins
              |apply method_pat_plain, Hm].
           rewrite S in E. discriminate.
Qed.

(** After the [(pool)] rule no method rule finds a match. *)
Lemma method_quiet_after_paren : forall meth, is_method meth = true ->
  forall s ok u, In u (tails (ins (lit "pool)") ok s)) ->
    starts_with (method_pat meth) u = false.
Proof.
  intros meth Hm. induction s as [|a s IH]; intros ok u I.
  - destruct I as [<-|[]]. reflexivity.
  - assert (Head : starts_with (method_pat meth) (ins (lit "pool)") ok (a :: s))
                   = false).
    { destruct (starts_with (method_pat meth) (ins (lit "pool)") ok (a :: s)))
        eqn:S; [|reflexivity].
      pose proof S as S'.
      apply (starts_with_insertion (a :: s)) in S';
        [|apply insertion_ins|apply method_pat_plain, Hm].
      apply starts_with_split in S'. rewrite S' in S.
      rewrite ins_method_pat, method_pat_not_rep in S by exact Hm.
      discriminate. }
    rewrite ins_cons in I, Head.
    destruct (N.eqb a (ch "(") && ok && starts_with (lit "pool)") s).
    + pose proof (IH false) as IH'.
      remember (ins (lit "pool)") false s) as X eqn:EX.
      change (lit "&*" ++ X) with (ch "&" :: ch "*" :: X) in I, Head.
      cbn [tails] in I.
      destruct I as [<-|[<-|[<-|I]]]; [exact Head|reflexivity|reflexivity|].
      apply IH'. destruct X; exact I.
    + pose proof (IH (next_ok ok a)) as IH'.
      remember (ins (lit "pool)") (next_ok ok a) s) as X eqn:EX.
      cbn [tails] in I. destruct I as [<-|I]; [exact Head|].
      apply IH'. destruct X; exact I.
Qed.

Lemma method_fixed_after_paren : forall meth s, is_method meth = true ->
  method_sub meth (ins_paren s) = ins_paren s.
Proof.
  intros meth s H. unfold method_sub.
  rewrite subn_with_no_match; [reflexivity|].
  intros u I. unfold method_matcher, literal_at.
  rewrite (method_quiet_after_paren meth H s false u I). reflexivity.
Qed.

(** Each rule of the script is a method rule or one of the two inserters. *)
Lemma rule_shape : forall r, In r rules ->
  (exists meth, is_method meth = true /\
     forall s, sub (fst r) (snd r) s = method_sub meth s) \/
  (forall s, sub (fst r) (snd r) s = ins_comma s) \/
  (forall s, sub (fst r) (snd r) s = ins_paren s).
Proof.
  intros r H. unfold rules in H. cbn [In] in H.
  destruct H as [<-|[<-|[<-|[<-|[<-|[<-|[]]]]]]].
  - left. exists (lit "execute"). split; [reflexivity|]. intros s.
    apply (sub_method (lit "execute")).
  - left. exists (lit "fetch_one"). split; [reflexivity|]. intros s.
    apply (sub_method (lit "fetch_one")).
  - left. exists (lit "fetch_all"). split; [reflexivity|]. intros s.
    apply (sub_method (lit "fetch_all")).
  - left. exists (lit "fetch_optional"). split; [reflexivity|]. intros s.
    apply (sub_method (lit "fetch_optional")).
  - right. left. exact sub_call_comma.
  - right. right. exact sub_call_paren.
Qed.

(** Running a rule first does not change what the two inserters give. *)
Lemma inserters_absorb : forall r x, In r rules ->
  ins_paren (ins_comma (sub (fst r) (snd r) x)) = ins_paren (ins_comma x).
Proof.
  intros r x H.
  destruct (rule_shape r H) as [(meth & M & E)|[E|E]]; rewrite E.
  - rewrite !ins_paren_comma. f_equal. unfold ins_paren, method_sub.
    apply ins_absorbs_method. exact M.
  - rewrite ins_comma_idempotent. reflexivity.
  - rewrite ins_paren_comma, ins_paren_idempotent, <- ins_paren_comma.
    reflexivity.
Qed.

Lemma comma_stays_done : forall r x, In r rules ->
  ins_comma x = x -> ins_comma (sub (fst r) (snd r) x) = sub (fst r) (snd r) x.
Proof.
  intros r x H F.
  destruct (rule_shape r H) as [(meth & M & E)|[E|E]]; rewrite E.
  - unfold ins_comma in *. rewrite (comma_method_commute meth M), F.
    reflexivity.
  - apply ins_comma_idempotent.
  - rewrite <- ins_paren_comma, F. reflexivity.
Qed.

Lemma paren_stays_done : forall r x, In r rules ->
  ins_paren x = x -> ins_paren (sub (fst r) (snd r) x) = sub (fst r) (snd r) x.
Proof.
  intros r x H F.
  destruct (rule_shape r H) as [(meth & M & E)|[E|E]]; rewrite E.
  - rewrite <- F at 2. rewrite (method_fixed_after_paren meth x M), F.
    unfold ins_paren in *. unfold method_sub.
    rewrite (ins_absorbs_method meth M). exact F.
  - rewrite ins_paren_comma, F. reflexivity.
  - apply ins_paren_idempotent.
Qed.

Lemma apply_rules_absorbed : forall rs x, incl rs rules ->
  ins_paren (ins_comma (apply_rules rs x)) = ins_paren (ins_comma x).
Proof.
  induction rs as [|r rs IH]; intros x I; [reflexivity|].
  rewrite apply_rules_cons, IH by (intros q Hq; apply I; right; exact Hq).
  apply inserters_absorb. apply I. left. reflexivity.
Qed.

Lemma apply_rules_comma_done : forall rs x, incl rs rules ->
  ins_comma x = x \/ In (pat_call_comma, rep_call_comma) rs ->
  ins_comma (apply_rules rs x) = apply_rules rs x.
Proof.
  induction rs as [|r rs IH]; intros x I H.
  - destruct H as [H|[]]. exact H.
  - rewrite apply_rules_cons.
    assert (Ir : In r rules) by (apply I; left; reflexivity).
    apply IH; [intros q Hq; apply I; right; exact Hq|].
    destruct H as [H|[H|H]].
    + left. apply comma_stays_done; assumption.
    + left. subst r. cbn [fst snd]. rewrite sub_call_comma.
      apply ins_comma_idempotent.
    + right. exact H.
Qed.

Lemma apply_rules_paren_done : forall rs x, incl rs rules ->
  ins_paren x = x \/ In (pat_call_paren, rep_call_paren) rs ->
  ins_paren (apply_rules rs x) = apply_rules rs x.
Proof.
  induction rs as [|r rs IH]; intros x I H.
  - destruct H as [H|[]]. exact H.
  - rewrite apply_rules_cons.
    assert (Ir : In r rules) by (apply I; left; reflexivity).
    apply IH; [intros q Hq; apply I; right; exact Hq|].
    destruct H as [H|[H|H]].
    + left. apply paren_stays_done; assumption.
    + left. subst r. cbn [fst snd]. rewrite sub_call_paren.
      apply ins_paren_idempotent.
    + right. exact H.
Qed.

(** X3.  The order of the six calls does not matter, nor does repeating
    or dropping method rules: any sequence of the script's rules in which
    both call rules occur gives the text the script gives. *)
Theorem rules_in_any_order : forall rs c,
  incl rs rules ->
  In (pat_call_comma, rep_call_comma) rs ->
  In (pat_call_paren, rep_call_paren) rs ->
  apply_rules rs c = rewrite c.
Proof.
  intros rs c I Hc Hp. rewrite rewrite_inserters.
  rewrite <- (apply_rules_absorbed rs c I).
  rewrite (apply_rules_comma_done rs c I (or_intror Hc)).
  rewrite (apply_rules_paren_done rs c I (or_intror Hp)). reflexivity.
Qed.

Lemma rules_in_any_order_witness :
  incl (rev rules) rules /\
  In (pat_call_comma, rep_call_comma) (rev rules) /\
  In (pat_call_paren, rep_call_paren) (rev rules) /\
  apply_rules (rev rules) (lit "a::b(pool, c.execute(pool))")
  = rewrite (lit "a::b(pool, c.execute(pool))").
Proof.
  assert (I : incl (rev rules) rules) by (intros r H; apply in_rev; exact H).
  assert (Hc : In (pat_call_comma, rep_call_comma) (rev rules))
    by (cbn; tauto).
  assert (Hp : In (pat_call_paren, rep_call_paren) (rev rules))
    by (cbn; tauto).
  split; [exact I|]. split; [exact Hc|]. split; [exact Hp|].
  exact (rules_in_any_order (rev rules) _ I Hc Hp).
Defined.

(** ** What a match is replaced by *)

Lemma ident_at_shape : forall s i r,
  ident_at s = Some (i, r) -> i <> [] /\ no_paren i = true.
Proof.
  intros [|x s] i r H; [discriminate|]. cbn [ident_at] in H.
  destruct (is_id_start x) eqn:E; [|discriminate].
  injection H as <- <-. split; [discriminate|].
  apply id_chars_no_paren. cbn [forallb].
  rewrite (id_start_is_id_char x E). apply take_id_all.
Qed.

(** X4.  A match of a call rule is replaced by itself with [&*] written
    after the parenthesis: the template [\1\2] gives back the name before
    the parenthesis as it stood, qualified or not, and the match ends with
    the call text. *)
Theorem call_match_keeps_name : forall t s rep rest,
  match_at (pat_call (ch "(" :: t))
           [TRef 1; TRef 2; TLit (ch "(" :: lit "&*" ++ t)] s
  = Some (rep, rest) ->
  exists name,
    name <> [] /\ no_paren name = true /\
    s = name ++ ch "(" :: t ++ rest /\
    rep = name ++ ch "(" :: lit "&*" ++ t.
Proof.
  intros t s rep rest H. rewrite match_at_call in H by reflexivity.
  unfold call_at in H.
  destruct (ident_at s) as [[i1 r1]|] eqn:E1; [|discriminate].
  apply ident_at_split in E1 as S1.
  destruct (ident_at_shape _ _ _ E1) as [N1 P1].
  assert (Bare :
    (if starts_with (ch "(" :: t) r1
     then Some (i1 ++ ch "(" :: lit "&*" ++ t, skipn (length (ch "(" :: t)) r1)
     else None) = Some (rep, rest) ->
    exists name,
      name <> [] /\ no_paren name = true /\
      s = name ++ ch "(" :: t ++ rest /\
      rep = name ++ ch "(" :: lit "&*" ++ t).
  { intros B. destruct (starts_with (ch "(" :: t) r1) eqn:E; [|discriminate].
    apply starts_with_split in E. injection B as <- <-.
    exists i1. repeat split; try assumption.
    rewrite S1 at 1. f_equal. exact E. }
  destruct (starts_with (lit "::") r1) eqn:E2; [|exact (Bare H)].
  apply starts_with_split in E2 as S2. change (length (lit "::")) with 2 in S2.
  destruct (ident_at (skipn 2 r1)) as [[i2 r2]|] eqn:E3; [|exact (Bare H)].
  apply ident_at_split in E3 as S3.
  destruct (ident_at_shape _ _ _ E3) as [N2 P2].
  destruct (starts_with (ch "(" :: t) r2) eqn:E4; [|exact (Bare H)].
  apply starts_with_split in E4. injection H as <- <-.
  exists (i1 ++ lit "::" ++ i2). repeat split.
  - destruct i1; [contradiction|discriminate].
  - unfold no_paren in *. rewrite !forallb_app.
    apply andb_true_intro. split; [exact P1|exact P2].
  - rewrite S1 at 1. rewrite S2 at 1. rewrite S3 at 1. rewrite E4 at 1.
    rewrite <- !app_assoc. reflexivity.
  - rewrite <- !app_assoc. reflexivity.
Qed.

Lemma call_match_keeps_name_witness :
  match_at (pat_call (ch "(" :: lit "pool,"))
           [TRef 1; TRef 2; TLit (ch "(" :: lit "&*" ++ lit "pool,")]
           (lit "db::save(pool, row)")
  = Some (lit "db::save(&*pool,", lit " row)") /\
  exists name,
    name <> [] /\ no_paren name = true /\
    lit "db::save(pool, row)" = name ++ ch "(" :: lit "pool," ++ lit " row)" /\
    lit "db::save(&*pool," = name ++ ch "(" :: lit "&*" ++ lit "pool,".
Proof.
  assert (H : match_at (pat_call (ch "(" :: lit "pool,"))
                [TRef 1; TRef 2; TLit (ch "(" :: lit "&*" ++ lit "pool,")]
                (lit "db::save(pool, row)")
              = Some (lit "db::save(&*pool,", lit " row)"))
    by (vm_compute; reflexivity).
  split; [exact H|].
  exact (call_match_keeps_name _ _ _ _ H).
Defined.

(** ** Texts the script leaves alone *)

Lemma zero_count_quiet : forall m, consuming m ->
  forall s, snd (subn_with m s) = 0 -> quiet m s.
Proof.
  intros m C. induction s as [|x s IH]; intros Z u I.
  - destruct I as [<-|[]].
    destruct (m []) as [[rep rest]|] eqn:E; [|reflexivity].
    apply C in E. cbn in E. lia.
  - destruct (m (x :: s)) as [[rep rest]|] eqn:E.
    + rewrite (subn_with_hit m _ _ _ E (C _ _ _ E)) in Z. discriminate.
    + rewrite subn_with_skip in Z by exact E. cbn [snd] in Z.
      destruct I as [<-|I]; [exact E|].
      apply IH; [exact Z|]. destruct s; exact I.
Qed.

Lemma rule_matcher_grows : forall r, In r rules ->
  grows_by_two (match_at (fst r) (snd r)).
Proof.
  intros r H s rep rest E.
  assert (M : forall meth, match_at (literal (method_pat meth))
                [TLit (method_rep meth)] s = Some (rep, rest) ->
              length rest < length s /\
              length rep = length s - length rest + 2).
  { intros meth X. rewrite match_at_literal in X.
    apply (method_matcher_grows meth s rep rest X). }
  assert (K : forall t, match_at (pat_call (ch "(" :: t))
                [TRef 1; TRef 2; TLit (ch "(" :: lit "&*" ++ t)] s
              = Some (rep, rest) ->
              length rest < length s /\
              length rep = length s - length rest + 2).
  { intros t X. rewrite match_at_call in X by reflexivity.
    apply (call_matcher_grows t s rep rest X). }
  unfold rules in H. cbn [In] in H.
  destruct H as [<-|[<-|[<-|[<-|[<-|[<-|[]]]]]]].
  - exact (M (lit "execute") E).
  - exact (M (lit "fetch_one") E).
  - exact (M (lit "fetch_all") E).
  - exact (M (lit "fetch_optional") E).
  - exact (K (lit "pool,") E).
  - exact (K (lit "pool)") E).
Qed.

Lemma no_replacement_no_match : forall rs c, incl rs rules ->
  list_sum (snd (apply_rules_counting rs c)) = 0 ->
  forall r, In r rs -> search (fst r) c = false.
Proof.
  induction rs as [|r0 rs IH]; intros c I Z r H; [destruct H|].
  assert (G : grows_by_two (match_at (fst r0) (snd r0)))
    by (apply rule_matcher_grows, I; left; reflexivity).
  cbn [apply_rules_counting] in Z.
  pose proof (subn_with_zero _ (length c) c (le_n _) (grows_consuming _ G)) as F.
  pose proof (zero_count_quiet _ (grows_consuming _ G) c) as Q.
  fold (subn (fst r0) (snd r0) c) in F, Q.
  destruct (subn (fst r0) (snd r0) c) as [c1 n]. cbn [fst snd] in *.
  pose proof (IH c1) as IH'.
  destruct (apply_rules_counting rs c1) as [c2 ns].
  cbn [snd list_sum fold_right] in *.
  assert (n = 0) by lia. subst n. rewrite (F eq_refl) in IH'.
  destruct H as [<-|H].
  - apply (search_quiet _ (snd r0)). apply Q. reflexivity.
  - apply IH'; [intros q Hq; apply I; right; exact Hq|lia|exact H].
Qed.

(** X5.  The script leaves a text as it is exactly when none of its six
    patterns matches anywhere in it: a match of any rule, also one that
    an earlier rule rewrites first, changes the text. *)
Theorem unchanged_iff_no_match : forall c,
  rewrite c = c <-> (forall r, In r rules -> search (fst r) c = false).
Proof.
  intros c. split.
  - intros F. apply no_replacement_no_match; [apply incl_refl|].
    pose proof (counting_length rules c rules_grow) as L.
    rewrite <- rewrite_apply_rules, F in L. lia.
  - intros H. rewrite rewrite_apply_rules. apply apply_rules_no_match.
    exact H.
Qed.

Lemma insertion_two_passes : forall s ok,
  insertion s (ins (lit "pool)") ok (ins (lit "pool,") ok s)).
Proof.
  induction s as [|a s IH]; intros ok; [constructor|].
  rewrite (ins_cons (lit "pool,") ok a s).
  destruct (N.eqb a (ch "(") && ok && starts_with (lit "pool,") s) eqn:E.
  - apply andb_prop in E as [E _]. apply andb_prop in E as [E _].
    apply N.eqb_eq in E. subst a.
    rewrite ins_miss by apply andb_false_r.
    rewrite ins_amp_star. apply insertion_add. apply IH.
  - rewrite ins_cons, starts_with_ins by reflexivity.
    destruct (N.eqb a (ch "(") && ok && starts_with (lit "pool)") s) eqn:F.
    + apply andb_prop in F as [F _]. apply andb_prop in F as [F _].
      apply N.eqb_eq in F. subst a.
      change (next_ok ok (ch "(")) with false.
      apply insertion_add. apply IH.
    + apply insertion_copy. apply IH.
Qed.

(** X6.  All the script ever adds to a text is [&*], each time directly
    after an opening parenthesis and at most once per parenthesis;
    every other character stays in place. *)
Theorem rewrite_is_insertion : forall c, insertion c (rewrite c).
Proof.
  intros c. rewrite rewrite_inserters. apply insertion_two_passes.
Qed.

(** ** One call of [fix_pool_patterns] *)

Lemma rewrite_changed_dec : forall c, {rewrite c = c} + {rewrite c <> c}.
Proof.
  intros c. destruct (str_eqb (rewrite c) c) eqn:E.
  - left. apply str_eqb_eq. exact E.
  - right. intros H. apply str_eqb_eq in H. congruence.
Qed.

Lemma set_file_other : forall p q f w, q <> p ->
  files (set_file p f w) q = files w q.
Proof.
  intros p q f w H. cbn [set_file files].
  destruct (String.eqb_spec q p); [contradiction|reflexivity].
Qed.

Lemma set_file_same : forall p f w, files (set_file p f w) p = Some f.
Proof. intros p f w. cbn [set_file files]. rewrite String.eqb_refl. reflexivity. Qed.

(** What one call does to the world, whatever the file and its faults. *)
Lemma fix_report : forall p w,
  exists b evs msgs,
    fst (fix_pool_patterns p w) = Ret b /\
    tree (snd (fix_pool_patterns p w)) = tree w /\
    events (snd (fix_pool_patterns p w)) = events w ++ evs /\
    stdout (snd (fix_pool_patterns p w)) = stdout w ++ msgs /\
    reads evs = [p] /\ incl (writes evs) [p] /\
    count_fixed msgs = (if b then 1 else 0) /\
    (forall q, q <> p -> files (snd (fix_pool_patterns p w)) q = files w q).
Proof.
  intros p w.
  assert (Err : forall e, read_fails w p e -> exists b evs msgs,
    fst (fix_pool_patterns p w) = Ret b /\
    tree (snd (fix_pool_patterns p w)) = tree w /\
    events (snd (fix_pool_patterns p w)) = events w ++ evs /\
    stdout (snd (fix_pool_patterns p w)) = stdout w ++ msgs /\
    reads evs = [p] /\ incl (writes evs) [p] /\
    count_fixed msgs = (if b then 1 else 0) /\
    (forall q, q <> p -> files (snd (fix_pool_patterns p w)) q = files w q)).
  { intros e H. rewrite (fix_read_error w p e H).
    exists false, [OpenRead p], [MsgError p e].
    repeat split; try reflexivity. intros q Hq. destruct Hq. }
  destruct (files w p) as [f|] eqn:F.
  2:{ apply (Err FileNotFoundError). unfold read_fails. rewrite F. reflexivity. }
  destruct (read_fault f) as [e|] eqn:R.
  { apply (Err e). unfold read_fails. rewrite F. exact R. }
  destruct (rewrite_changed_dec (text f)) as [U|U].
  - rewrite (fix_unchanged w p f F R U).
    exists false, [OpenRead p], [].
    repeat split; try reflexivity.
    + cbn. symmetry. apply app_nil_r.
    + intros q Hq. destruct Hq.
  - rewrite (fix_changed w p f F R U). cbv zeta.
    destruct (open_fault f) as [e|].
    + exists false, [OpenRead p; OpenWrite p], [MsgError p e].
      repeat split; try reflexivity.
      * cbn. rewrite <- app_assoc. reflexivity.
      * intros q Hq. exact Hq.
    + destruct (write_fault f) as [[n e]|].
      * exists false, [OpenRead p; OpenWrite p], [MsgError p e].
        repeat split; try reflexivity.
        -- cbn. rewrite <- app_assoc. reflexivity.
        -- intros q Hq. exact Hq.
        -- intros q Hq. cbn [snd printed files].
           rewrite set_file_other by exact Hq. reflexivity.
      * exists true, [OpenRead p; OpenWrite p], [MsgFixed p].
        repeat split; try reflexivity.
        -- cbn. rewrite <- app_assoc. reflexivity.
        -- intros q Hq. exact Hq.
        -- intros q Hq. cbn [snd printed files].
           rewrite set_file_other by exact Hq. reflexivity.
Qed.


(** X8.  A call touches no file but its own and leaves the directory
    listing as it is. *)
Theorem other_files_untouched : forall p q w,
  q <> p ->
  files (snd (fix_pool_patterns p w)) q = files w q /\
  tree (snd (fix_pool_patterns p w)) = tree w.
Proof.
  intros p q w H.
  destruct (fix_report p w) as (b & evs & msgs & _ & T & _ & _ & _ & _ & _ & X).
  split; [apply X; exact H|exact T].
Qed.

Lemma other_files_untouched_witness :
  main_rs <> db_rs /\
  fst (fix_pool_patterns db_rs pair_world) = Ret true /\
  files (snd (fix_pool_patterns db_rs pair_world)) main_rs = Some clean_file.
Proof.
  assert (H : main_rs <> db_rs) by discriminate.
  split; [exact H|]. split; [vm_compute; reflexivity|].
  destruct (other_files_untouched db_rs main_rs pair_world H) as [F _].
  rewrite F. reflexivity.
Defined.

(** ** The whole run *)

Lemma count_fixed_app : forall a b,
  count_fixed (a ++ b) = count_fixed a + count_fixed b.
Proof.
  intros a b. unfold count_fixed. rewrite filter_app, length_app. reflexivity.
Qed.

Lemma writes_app : forall a b, writes (a ++ b) = writes a ++ writes b.
Proof. intros a b. unfold writes. apply flat_map_app. Qed.

Lemma for_files_cons : forall p rest n w,
  for_files (p :: rest) n w =
    match fst (fix_pool_patterns p w) with
    | Ret b => for_files rest (if b then S n else n) (snd (fix_pool_patterns p w))
    | Raise e => (Raise e, snd (fix_pool_patterns p w))
    end.
Proof.
  intros p rest n w. cbn [for_files]. unfold bind at 1.
  destruct (fix_pool_patterns p w) as [[b|e] w1]; reflexivity.
Qed.

(** What the loop does to the world. *)
Lemma for_files_report : forall l n w,
  exists k evs msgs,
    fst (for_files l n w) = Ret (n + k) /\
    tree (snd (for_files l n w)) = tree w /\
    events (snd (for_files l n w)) = events w ++ evs /\
    stdout (snd (for_files l n w)) = stdout w ++ msgs /\
    reads evs = l /\ incl (writes evs) l /\
    count_fixed msgs = k /\ k <= length l /\
    (forall q, ~ In q l -> files (snd (for_files l n w)) q = files w q).
Proof.
  induction l as [|p l IH]; intros n w.
  - exists 0, [], []. cbn [for_files ret fst snd].
    rewrite Nat.add_0_r, !app_nil_r.
    repeat split; try reflexivity; try lia. intros q Hq. exact Hq.
  - destruct (fix_report p w)
      as (b & evs1 & msgs1 & B & T1 & E1 & O1 & R1 & W1 & C1 & X1).
    rewrite for_files_cons, B.
    destruct (IH (if b then S n else n) (snd (fix_pool_patterns p w)))
      as (k & evs2 & msgs2 & B2 & T2 & E2 & O2 & R2 & W2 & C2 & K2 & X2).
    exists ((if b then 1 else 0) + k), (evs1 ++ evs2), (msgs1 ++ msgs2).
    repeat split.
    + rewrite B2. f_equal. destruct b; lia.
    + rewrite T2. exact T1.
    + rewrite E2, E1, app_assoc. reflexivity.
    + rewrite O2, O1, app_assoc. reflexivity.
    + rewrite reads_app, R1, R2. reflexivity.
    + rewrite writes_app. intros q Hq. apply in_app_or in Hq as [Hq|Hq].
      * apply W1 in Hq. destruct Hq as [<-|[]]. left. reflexivity.
      * right. apply W2. exact Hq.
    + rewrite count_fixed_app, C1, C2. reflexivity.
    + cbn [length]. destruct b; lia.
    + intros q Hq. rewrite X2 by (intros I; apply Hq; right; exact I).
      apply X1. intros ->. apply Hq. left. reflexivity.
Qed.

Lemma main_present : forall w l, tree w = Some l ->
  main w =
    match for_files l 0 (printed (MsgFound (length l)) w) with
    | (Ret k, w1) => (Ret tt, printed (MsgFixedCount k) w1)
    | (Raise e, w1) => (Raise e, w1)
    end.
Proof.
  intros w l H. unfold main, bind, src_dir_exists, rglob_rs, print.
  rewrite H. cbn [negb]. rewrite ?H.
  destruct (for_files l 0 (printed (MsgFound (length l)) w)) as [[k|e] w1];
    reflexivity.
Qed.

(** X9.  With the source directory present, [main] returns without an
    exception whatever happens to the files.  It prints the number of
    listed files first, opens each listed file for reading once, in the
    order of the listing, opens for writing listed files only, and ends
    with the "Fixed" count, which is the number of "Fixed:" lines printed
    in between and at most the number of files. *)
Theorem main_report : forall w l,
  tree w = Some l ->
  exists k evs msgs,
    fst (main w) = Ret tt /\
    events (snd (main w)) = events w ++ evs /\
    reads evs = l /\ incl (writes evs) l /\
    stdout (snd (main w))
    = stdout w ++ MsgFound (length l) :: msgs ++ [MsgFixedCount k] /\
    count_fixed msgs = k /\ k <= length l /\
    tree (snd (main w)) = Some l.
Proof.
  intros w l H. rewrite (main_present w l H).
  destruct (for_files_report l 0 (printed (MsgFound (length l)) w))
    as (k & evs & msgs & B & T & E & O & R & W & C & K & _).
  destruct (for_files l 0 (printed (MsgFound (length l)) w)) as [[k'|e] w1];
    cbn [fst snd] in *; [|discriminate].
  injection B as ->. exists k, evs, msgs.
  repeat split; try assumption.
  - cbn [printed stdout]. rewrite O. cbn [printed stdout].
    rewrite <- !app_assoc. reflexivity.
  - cbn [printed tree]. rewrite T. exact H.
Qed.

Lemma main_report_witness :
  tree pair_world = Some [db_rs; main_rs] /\
  exists k evs msgs,
    fst (main pair_world) = Ret tt /\
    events (snd (main pair_world)) = events pair_world ++ evs /\
    reads evs = [db_rs; main_rs] /\ incl (writes evs) [db_rs; main_rs] /\
    stdout (snd (main pair_world))
    = stdout pair_world ++ MsgFound 2 :: msgs ++ [MsgFixedCount k] /\
    count_fixed msgs = k /\ k <= 2 /\
    tree (snd (main pair_world)) = Some [db_rs; main_rs].
Proof.
  split; [reflexivity|].
  exact (main_report pair_world [db_rs; main_rs] eq_refl).
Defined.



(** ** A second run *)

Lemma main_keeps_tree : forall w l, tree w = Some l ->
  tree (snd (main w)) = Some l.
Proof.
  intros w l H. rewrite (main_present w l H).
  destruct (for_files_report l 0 (printed (MsgFound (length l)) w))
    as (k & evs & msgs & B & T & _).
  destruct (for_files l 0 (printed (MsgFound (length l)) w)) as [[k'|e] w1];
    cbn [fst snd] in *; [|discriminate].
  cbn [printed tree]. rewrite T. exact H.
Qed.

Lemma rewrite_twice : forall c, rewrite (rewrite c) = rewrite c.
Proof.
  intros c. rewrite !rewrite_inserters.
  rewrite <- (ins_paren_comma (ins_comma c)).
  rewrite ins_comma_idempotent, ins_paren_idempotent. reflexivity.
Qed.

Lemma fix_on_settled : forall p w, settled w p ->
  fix_pool_patterns p w = (Ret false, log_event (OpenRead p) w).
Proof.
  intros p w (f & F & R & U). apply (fix_unchanged w p f F R U).
Qed.

Lemma fix_on_healthy : forall p w f, files w p = Some f -> sound f ->
  files (snd (fix_pool_patterns p w)) p
  = Some (mkfile (rewrite (text f)) None None None).
Proof.
  intros p w f F (R & O & W).
  destruct (rewrite_changed_dec (text f)) as [U|U].
  - rewrite (fix_unchanged w p f F R U). cbn [snd log_event files].
    rewrite F, U. destruct f as [t r o wf]. cbn in *. subst. reflexivity.
  - rewrite (fix_changed w p f F R U). cbv zeta. rewrite O, W.
    cbn [snd printed files]. rewrite set_file_same, R. reflexivity.
Qed.

Lemma fix_keeps_healthy : forall p q w, healthy w q ->
  healthy (snd (fix_pool_patterns p w)) q.
Proof.
  intros p q w (f & F & S). destruct (String.eqb_spec q p) as [->|N].
  - eexists. split; [apply (fix_on_healthy p w f F S)|].
    repeat split.
  - exists f. split; [|exact S].
    destruct (fix_report p w) as (_ & _ & _ & _ & _ & _ & _ & _ & _ & _ & X).
    rewrite (X q N). exact F.
Qed.

Lemma fix_keeps_settled : forall p q w, settled w q ->
  settled (snd (fix_pool_patterns p w)) q.
Proof.
  intros p q w H. destruct (String.eqb_spec q p) as [->|N].
  - rewrite (fix_on_settled p w H). exact H.
  - destruct H as (f & F & R & U). exists f. split; [|split; assumption].
    destruct (fix_report p w) as (_ & _ & _ & _ & _ & _ & _ & _ & _ & _ & X).
    rewrite (X q N). exact F.
Qed.

Lemma fix_settles : forall p w, healthy w p ->
  settled (snd (fix_pool_patterns p w)) p.
Proof.
  intros p w (f & F & S). eexists. split; [apply (fix_on_healthy p w f F S)|].
  split; [reflexivity|]. apply rewrite_twice.
Qed.

Lemma for_files_settles : forall l n w,
  (forall p, In p l -> healthy w p) ->
  forall q, settled w q \/ In q l -> settled (snd (for_files l n w)) q.
Proof.
  induction l as [|p l IH]; intros n w H q Q.
  - destruct Q as [Q|[]]. exact Q.
  - rewrite for_files_cons.
    destruct (fix_report p w) as (b & _ & _ & B & _). rewrite B.
    apply IH.
    + intros p' Hp'. apply fix_keeps_healthy. apply H. right. exact Hp'.
    + destruct Q as [Q|[<-|Q]].
      * left. apply fix_keeps_settled. exact Q.
      * left. apply fix_settles. apply H. left. reflexivity.
      * right. exact Q.
Qed.

Lemma for_files_on_settled : forall l n w,
  (forall p, In p l -> settled w p) ->
  for_files l n w =
    (Ret n, mkworld (tree w) (files w)
                    (events w ++ List.map OpenRead l) (stdout w)).
Proof.
  induction l as [|p l IH]; intros n w H.
  - cbn [for_files ret List.map]. rewrite app_nil_r. destruct w; reflexivity.
  - rewrite for_files_cons, (fix_on_settled p w) by (apply H; left; reflexivity).
    cbn [fst snd]. rewrite IH.
    + cbn [log_event tree files events stdout List.map].
      rewrite <- app_assoc. reflexivity.
    + intros q Hq. destruct (H q (or_intror Hq)) as (f & F & R & U).
      exists f. repeat split; assumption.
Qed.

(** X11.  When every listed file can be read and written, a second run
    finds nothing to do: it reads the listed files, writes none, leaves
    every file as the first run left it and reports zero fixed files. *)
Theorem second_run_fixes_nothing : forall w l,
  tree w = Some l ->
  (forall p, In p l -> healthy w p) ->
  main (snd (main w)) =
    (Ret tt,
     mkworld (Some l) (files (snd (main w)))
             (events (snd (main w)) ++ List.map OpenRead l)
             (stdout (snd (main w))
              ++ [MsgFound (length l); MsgFixedCount 0])).
Proof.
  intros w l T H.
  assert (S : forall p, In p l -> settled (snd (main w)) p).
  { intros p Hp. rewrite (main_present w l T).
    pose proof (for_files_settles l 0 (printed (MsgFound (length l)) w) H p
                  (or_intror Hp)) as X.
    destruct (for_files l 0 (printed (MsgFound (length l)) w)) as [[k|e] w1];
      exact X. }
  pose proof (main_keeps_tree w l T) as T1.
  rewrite (main_present _ l T1).
  rewrite for_files_on_settled by exact S.
  unfold printed. cbn [tree files events stdout]. rewrite T1, <- app_assoc.
  reflexivity.
Qed.

Lemma second_run_fixes_nothing_witness :
  tree pair_world = Some [db_rs; main_rs] /\
  (forall p, In p [db_rs; main_rs] -> healthy pair_world p) /\
  main (snd (main pair_world)) =
    (Ret tt,
     mkworld (Some [db_rs; main_rs]) (files (snd (main pair_world)))
             (events (snd (main pair_world))
              ++ List.map OpenRead [db_rs; main_rs])
             (stdout (snd (main pair_world))
              ++ [MsgFound 2; MsgFixedCount 0])).
Proof.
  assert (H : forall p, In p [db_rs; main_rs] -> healthy pair_world p).
  { intros p [<-|[<-|[]]]; eexists; (split; [reflexivity|]); repeat split. }
  split; [reflexivity|]. split; [exact H|].
  exact (second_run_fixes_nothing pair_world [db_rs; main_rs] eq_refl H).
Defined.
